(** * Multi-atlas brain region table: the tree filter, traversal,
      expansion and highlight engine of [src/App.tsx]

    The development embeds the pure core of the [App] component:
    [highlightText], [getAllKeys], [filterTree], the derived value
    [filteredData], the auto-expand effect, [onExpand] and the data loading
    effect, and proves the properties the specification states about them.

    Modelling conventions.
    - A JavaScript string is a [string]: a sequence of code units below
      256, the Basic Latin and Latin-1 blocks.  [toLowerCase] and [trim] are
      the built-ins restricted to these code units; there lowercasing acts
      on each code unit by itself and keeps the length.  Where a statement
      rests on that, the built-in is a parameter and what is needed of it a
      hypothesis ([highlightTextWith], [KeepsPositions]).
    - A [RegionNode] is a record with the interface's named fields and a
      finite map for the index signature [[key: string]: unknown].  The
      optional [children] field is an [option]: [None] stands for an absent
      field and for the value [undefined], which the program never tells
      apart.
    - [Array.prototype.push] on a local array is explicit state passing. *)

From Stdlib Require Import String Ascii List ZArith Bool Arith Lia.
From stdpp Require Import base option list strings gmap.

Import ListNotations.
Local Open Scope string_scope.
Local Open Scope list_scope.

(** ** JavaScript strings *)

Module JSString.

(** [c.toLowerCase()] for one code unit: [A]..[Z] and the capital letters
    of Latin-1, U+00C0..U+00DE without the multiplication sign U+00D7, move
    up by 32; every other code unit stays. *)
Definition lowerChar (c : ascii) : ascii :=
  let n := nat_of_ascii c in
  if ((65 <=? n)%nat && (n <=? 90)%nat)
     || ((192 <=? n)%nat && (n <=? 222)%nat && negb (n =? 215)%nat)
  then ascii_of_nat (n + 32) else c.

(** [String.prototype.toLowerCase]. *)
Fixpoint toLowerCase (s : string) : string :=
  match s with
  | EmptyString => EmptyString
  | String c s' => String (lowerChar c) (toLowerCase s')
  end.

(** White space and line terminators, as [trim] strips them: TAB, LF, VT,
    FF, CR, SP and NBSP. *)
Definition isWhiteSpace (c : ascii) : bool :=
  let n := nat_of_ascii c in
  ((9 <=? n)%nat && (n <=? 13)%nat) || (n =? 32)%nat || (n =? 160)%nat.

Fixpoint trimStart (s : string) : string :=
  match s with
  | EmptyString => EmptyString
  | String c s' => if isWhiteSpace c then trimStart s' else s
  end.

(** Strips trailing white space: a character is dropped when it is white
    space and nothing but white space follows it. *)
Fixpoint trimEnd (s : string) : string :=
  match s with
  | EmptyString => EmptyString
  | String c s' =>
      match trimEnd s' with
      | EmptyString => if isWhiteSpace c then EmptyString else String c EmptyString
      | t => String c t
      end
  end.

(** [String.prototype.trim]. *)
Definition trim (s : string) : string := trimEnd (trimStart s).

(** Truthiness of a string: the empty string is the only falsy one. *)
Definition truthy (s : string) : bool :=
  match s with
  | EmptyString => false
  | String _ _ => true
  end.

(** [s.startsWith(pat)]. *)
Fixpoint startsWith (s pat : string) {struct pat} : bool :=
  match pat, s with
  | EmptyString, _ => true
  | String _ _, EmptyString => false
  | String p pat', String c s' => if Ascii.eqb p c then startsWith s' pat' else false
  end.

(** [s.indexOf(pat)]: the position of the leftmost occurrence of [pat] in
    [s]; [None] stands for the result [-1]. *)
Fixpoint indexOf (s pat : string) : option nat :=
  if startsWith s pat then Some 0
  else match s with
       | EmptyString => None
       | String _ s' => option_map S (indexOf s' pat)
       end.

(** [s.includes(pat)]. *)
Fixpoint includes (s pat : string) : bool :=
  startsWith s pat ||
  match s with
  | EmptyString => false
  | String _ s' => includes s' pat
  end.

(** [s.slice(0, n)]. *)
Fixpoint sliceTo (n : nat) (s : string) : string :=
  match n, s with
  | S n', String c s' => String c (sliceTo n' s')
  | _, _ => EmptyString
  end.

(** [s.slice(from)] for a non-negative index. *)
Fixpoint sliceFrom (from : nat) (s : string) : string :=
  match from, s with
  | S n', String _ s' => sliceFrom n' s'
  | _, _ => s
  end.

(** [s.slice(from, to)] for non-negative indices: empty when
    [to <= from], cut at the end of [s]. *)
Definition slice (from to : nat) (s : string) : string :=
  sliceTo (to - from) (sliceFrom from s).

End JSString.
Import JSString.

(** ** Data model *)

(** Values a property of a parsed JSON object can hold.  The program only
    asks whether such a value is a string. *)
Inductive JSValue : Type :=
| JUndefined
| JNull
| JBool (b : bool)
| JNumber (z : Z)
| JString (s : string)
| JObject.

(** [interface RegionNode].  [fields] holds the properties of the index
    signature, among them one per atlas key. *)
#[local] Unset Elimination Schemes.
Inductive RegionNode : Type :=
  mkRegionNode {
    key : string;
    id : Z;
    name : string;
    children : option (list RegionNode);
    fields : gmap string JSValue
  }.
#[local] Set Elimination Schemes.

(** [interface RegionData]. *)
Record RegionData : Type :=
  mkRegionData {
    rd_atlases : list string;
    rd_atlasKeys : list string;
    rd_totalRegions : Z;
    rd_regions : list RegionNode
  }.

(** [node[k]]: the named properties come first, then the index signature;
    a property that is not there reads as [undefined].  Properties inherited
    from [Object.prototype] are functions or objects, never strings, and read
    as [undefined] here; the program only asks for strings. *)
Definition getProp (node : RegionNode) (k : string) : JSValue :=
  if String.eqb k "key" then JString (key node)
  else if String.eqb k "id" then JNumber (id node)
  else if String.eqb k "name" then JString (name node)
  else if String.eqb k "children" then
    match children node with
    | Some _ => JObject
    | None => JUndefined
    end
  else
    match fields node !! k with
    | Some v => v
    | None => JUndefined
    end.

(** [{ ...node, children: c }]. *)
Definition withChildren (node : RegionNode) (c : option (list RegionNode)) : RegionNode :=
  {| key := key node; id := id node; name := name node;
     children := c; fields := fields node |}.

(** ** Tree traversal: [getAllKeys] *)

(** One iteration of the loop in [traverse]: [keys.push(item.key)], then the
    recursive call on the children when there are any.  [keys] is the array
    the closure appends to. *)
Fixpoint traverse_item (item : RegionNode) (keys : list string) : list string :=
  match item with
  | mkRegionNode k _ _ ch _ =>
      let keys := keys ++ [k] in
      match ch with
      | Some cs => fold_left (fun ks it => traverse_item it ks) cs keys
      | None => keys
      end
  end.

(** [traverse(items)]: the [for ... of] loop over [items]. *)
Definition traverse (items : list RegionNode) (keys : list string) : list string :=
  fold_left (fun ks it => traverse_item it ks) items keys.

Definition getAllKeys (nodes : list RegionNode) : list string :=
  traverse nodes [].

(** ** Search filter: [filterTree] *)

(** [typeof val === 'string' && val.toLowerCase().includes(searchLower)]. *)
Definition valueMatch (searchLower : string) (val : JSValue) : bool :=
  match val with
  | JString s => includes (toLowerCase s) searchLower
  | _ => false
  end.

Definition nameMatch (searchLower : string) (node : RegionNode) : bool :=
  includes (toLowerCase (name node)) searchLower.

(** [atlasKeys.some(key => ...)]. *)
Definition acronymMatch (atlasKeys : list string) (searchLower : string)
    (node : RegionNode) : bool :=
  existsb (fun k => valueMatch searchLower (getProp node k)) atlasKeys.

(** [filteredChildren && filteredChildren.length > 0]. *)
Definition nonEmpty (filteredChildren : option (list RegionNode)) : bool :=
  match filteredChildren with
  | Some (_ :: _) => true
  | _ => false
  end.

(** One iteration of the loop in [filterTree]; [result] is the array the
    loop pushes to. *)
Fixpoint filterTree_step (atlasKeys : list string) (searchLower : string)
    (node : RegionNode) (result : list RegionNode) : list RegionNode :=
  match node with
  | mkRegionNode _ _ _ ch _ =>
      let filteredChildren :=
        match ch with
        | Some cs =>
            Some (fold_left
                    (fun res n => filterTree_step atlasKeys searchLower n res) cs [])
        | None => None
        end in
      if nameMatch searchLower node || acronymMatch atlasKeys searchLower node
         || nonEmpty filteredChildren
      then result ++ [withChildren node
                        (if nonEmpty filteredChildren then filteredChildren else None)]
      else result
  end.

Definition filterTree (atlasKeys : list string) (nodes : list RegionNode)
    (searchLower : string) : list RegionNode :=
  fold_left (fun res n => filterTree_step atlasKeys searchLower n res) nodes [].

(** The derived value [filteredData]. *)
Definition filteredData (atlasKeys : list string) (data : list RegionNode)
    (searchText : string) : list RegionNode :=
  if truthy (trim searchText)
  then filterTree atlasKeys data (toLowerCase searchText)
  else data.

(** ** Highlight formatter: [highlightText] *)

(** The pieces of text [highlightText] hands to the renderer: a plain string,
    or a string wrapped in [<mark>]. *)
Inductive Segment : Type :=
| Plain (s : string)
| Matched (s : string).

(** [return text] is the one plain segment [text]; the fragment
    [<>{before}<mark>{match}</mark>{after}</>] is its three children. *)
Definition highlightText (text search : string) : list Segment :=
  if negb (truthy (trim search)) || negb (truthy text) then [Plain text]
  else
    let searchLower := toLowerCase search in
    let textLower := toLowerCase text in
    match indexOf textLower searchLower with
    | None => [Plain text]
    | Some index =>
        let before := slice 0 index text in
        let match_ := slice index (index + String.length search) text in
        let after := sliceFrom (index + String.length search) text in
        [Plain before; Matched match_; Plain after]
    end.

(** [highlightText] with the built-in [String.prototype.toLowerCase] taken
    as a parameter: the same statements, for whatever the built-in does to
    the strings at hand. *)
Definition highlightTextWith (lower : string -> string) (text search : string)
    : list Segment :=
  if negb (truthy (trim search)) || negb (truthy text) then [Plain text]
  else
    let searchLower := lower search in
    let textLower := lower text in
    match indexOf textLower searchLower with
    | None => [Plain text]
    | Some index =>
        let before := slice 0 index text in
        let match_ := slice index (index + String.length search) text in
        let after := sliceFrom (index + String.length search) text in
        [Plain before; Matched match_; Plain after]
    end.

(** Lowercasing keeps the positions of [text]: the lowercased text is as
    long as the text, and the lowercase form of a slice of the text is the
    same slice of the lowercased text.  This holds of a text of ASCII
    characters; it fails of a text with a character whose lowercase form
    takes more code units, U+0130 for one. *)
Definition KeepsPositions (lower : string -> string) (text : string) : Prop :=
  String.length (lower text) = String.length text /\
  forall i j, lower (slice i j text) = slice i j (lower text).

(** ** Component state and its transitions *)

(** The [useState] cells of [App] that the engine reads and writes;
    [tableHeight], a layout measure, is left out. *)
Record AppState : Type :=
  mkAppState {
    data : list RegionNode;
    atlases : list string;
    atlasKeys : list string;
    totalRegions : Z;
    searchText : string;
    expandedKeys : list string;
    loading : bool
  }.

Definition initialState : AppState :=
  {| data := []; atlases := []; atlasKeys := []; totalRegions := 0;
     searchText := ""; expandedKeys := []; loading := true |}.

Definition setExpandedKeys (ks : list string) (st : AppState) : AppState :=
  {| data := data st; atlases := atlases st; atlasKeys := atlasKeys st;
     totalRegions := totalRegions st; searchText := searchText st;
     expandedKeys := ks; loading := loading st |}.

Definition setSearchText (q : string) (st : AppState) : AppState :=
  {| data := data st; atlases := atlases st; atlasKeys := atlasKeys st;
     totalRegions := totalRegions st; searchText := q;
     expandedKeys := expandedKeys st; loading := loading st |}.

Definition setLoading (b : bool) (st : AppState) : AppState :=
  {| data := data st; atlases := atlases st; atlasKeys := atlasKeys st;
     totalRegions := totalRegions st; searchText := searchText st;
     expandedKeys := expandedKeys st; loading := b |}.

(** [setData], [setAtlases], [setAtlasKeys] and [setTotalRegions] in a row. *)
Definition setDataset (result : RegionData) (st : AppState) : AppState :=
  {| data := rd_regions result; atlases := rd_atlases result;
     atlasKeys := rd_atlasKeys result; totalRegions := rd_totalRegions result;
     searchText := searchText st; expandedKeys := expandedKeys st;
     loading := loading st |}.

(** [filteredData] of a state. *)
Definition filteredDataOf (st : AppState) : list RegionNode :=
  filteredData (atlasKeys st) (data st) (searchText st).

Definition expandAll (st : AppState) : AppState :=
  setExpandedKeys (getAllKeys (data st)) st.

Definition collapseAll (st : AppState) : AppState :=
  setExpandedKeys [] st.

(** The effect with dependencies [searchText, filteredData]. *)
Definition autoExpand (st : AppState) : AppState :=
  if truthy (trim (searchText st))
  then setExpandedKeys (getAllKeys (filteredDataOf st)) st
  else st.

(** [onExpand]: the updater passed to [setExpandedKeys] runs on the
    previous value. *)
Definition onExpand (expanded : bool) (record : RegionNode) (st : AppState) : AppState :=
  if expanded
  then setExpandedKeys (expandedKeys st ++ [key record]) st
  else setExpandedKeys
         (List.filter (fun k => negb (String.eqb k (key record))) (expandedKeys st)) st.

(** The number in the [match-count] span; [None] when the span is not
    rendered. *)
Definition matchCount (st : AppState) : option nat :=
  if truthy (searchText st)
  then Some (length (getAllKeys (filteredDataOf st)))
  else None.

(** ** Loading the dataset *)

(** A settled promise. *)
Inductive Promise (A : Type) : Type :=
| Fulfilled (a : A)
| Rejected (err : string).
Arguments Fulfilled {A} a.
Arguments Rejected {A} err.

(** [p.then(f)]. *)
Definition andThen {A B : Type} (p : Promise A) (f : A -> Promise B) : Promise B :=
  match p with
  | Fulfilled a => f a
  | Rejected err => Rejected err
  end.

Notation "p >>= f" := (andThen p f) (at level 50, left associativity).

(** What the component asks of the outside world. *)
Inductive Action : Type :=
| Fetch (url : string)
| ConsoleError (msg err : string).

(** The network, as the load effect sees it: [fetch] and [Response.json]. *)
Record World (Response : Type) : Type :=
  mkWorld {
    fetch : string -> Promise Response;
    json : Response -> Promise RegionData
  }.
Arguments fetch {Response} w url.
Arguments json {Response} w res.

(** Requests among the actions. *)
Definition isFetch (a : Action) : bool :=
  match a with
  | Fetch _ => true
  | ConsoleError _ _ => false
  end.

(** [base] of the build configuration, which is [import.meta.env.BASE_URL]. *)
Definition BASE_URL : string := "/atlas_comparison_tree_web/".

(** The handlers at the end of the promise chain, run on the state at the
    time the chain settles. *)
Definition loadSettled (outcome : Promise RegionData) (st : AppState)
    : AppState * list Action :=
  match outcome with
  | Fulfilled result => (setLoading false (setDataset result st), [])
  | Rejected err =>
      (setLoading false st, [ConsoleError "Failed to load regions:" err])
  end.

(** The effect with no dependencies: it runs once, after the first render. *)
Definition loadData {Response : Type} (w : World Response) (st : AppState)
    : AppState * list Action :=
  let url := BASE_URL +:+ "regions.json" in
  let outcome := fetch w url >>= json w in
  let '(st', log) := loadSettled outcome st in
  (st', Fetch url :: log).

(** ** Vocabulary of the specification *)

(** The child sequence of a node, empty for a leaf. *)
Definition childList (node : RegionNode) : list RegionNode :=
  match children node with
  | Some cs => cs
  | None => []
  end.

(** [InForest n f]: [n] is a node of the forest [f], at any depth. *)
Inductive InForest : RegionNode -> list RegionNode -> Prop :=
| InForest_root n f : In n f -> InForest n f
| InForest_child n p f : In p f -> InForest n (childList p) -> InForest n f.

(** [d] is a proper descendant of [n]. *)
Definition Descendant (d n : RegionNode) : Prop := InForest d (childList n).

(** All nodes of a forest, parents before children. *)
Fixpoint nodesOf_node (node : RegionNode) : list RegionNode :=
  match node with
  | mkRegionNode _ _ _ ch _ =>
      node :: match ch with
              | Some cs => flat_map nodesOf_node cs
              | None => []
              end
  end.

Definition nodesOf (forest : list RegionNode) : list RegionNode :=
  flat_map nodesOf_node forest.

(** The number of nodes of a forest. *)
Fixpoint size_node (node : RegionNode) : nat :=
  match node with
  | mkRegionNode _ _ _ ch _ =>
      S match ch with
        | Some cs => list_sum (map size_node cs)
        | None => 0
        end
  end.

Definition forestSize (forest : list RegionNode) : nat :=
  list_sum (map size_node forest).

(** The specification's [collectKeys], following its words: visit each node,
    emit its key, then recurse into its children in order. *)
Fixpoint collectKeys_node (node : RegionNode) : list string :=
  match node with
  | mkRegionNode k _ _ ch _ =>
      k :: match ch with
           | Some cs => flat_map collectKeys_node cs
           | None => []
           end
  end.

Definition collectKeys (nodes : list RegionNode) : list string :=
  flat_map collectKeys_node nodes.

(** [caseInsensitiveContains(text, query)]. *)
Definition caseInsensitiveContains (text query : string) : bool :=
  includes (toLowerCase text) (toLowerCase query).

(** A node matches the query by itself: by its name, or by an atlas key
    whose value is a string. *)
Definition SelfMatches (atlasKeys : list string) (query : string)
    (node : RegionNode) : Prop :=
  caseInsensitiveContains (name node) query = true \/
  exists k s, In k atlasKeys /\ getProp node k = JString s /\
              caseInsensitiveContains s query = true.

(** The children the filter computes for a node. *)
Definition filteredChildrenOf (atlasKeys : list string) (searchLower : string)
    (node : RegionNode) : option (list RegionNode) :=
  match children node with
  | Some cs => Some (filterTree atlasKeys cs searchLower)
  | None => None
  end.

(** The condition under which the filter keeps a node. *)
Definition included (atlasKeys : list string) (searchLower : string)
    (node : RegionNode) : bool :=
  nameMatch searchLower node || acronymMatch atlasKeys searchLower node
  || nonEmpty (filteredChildrenOf atlasKeys searchLower node).

(** The node the filter pushes for a node it keeps. *)
Definition emitted (atlasKeys : list string) (searchLower : string)
    (node : RegionNode) : RegionNode :=
  withChildren node
    (if nonEmpty (filteredChildrenOf atlasKeys searchLower node)
     then filteredChildrenOf atlasKeys searchLower node
     else None).

(** Two nodes that differ at most in their [children] field. *)
Definition SameButChildren (a b : RegionNode) : Prop :=
  key a = key b /\ id a = id b /\ name a = name b /\ fields a = fields b.

(** Equality of trees up to the identification of an empty [children]
    sequence with an absent one. *)
#[local] Unset Elimination Schemes.
Inductive LeafEquiv : RegionNode -> RegionNode -> Prop :=
| LeafEquiv_node a b :
    SameButChildren a b ->
    Forall2 LeafEquiv (childList a) (childList b) ->
    LeafEquiv a b.
#[local] Set Elimination Schemes.

(** [PrunedForest out inp]: [out] is [inp] with some subtrees deleted.  The
    nodes that stay keep their place among their siblings at every depth
    and differ from the nodes they come from in their children at most. *)
Inductive PrunedForest : list RegionNode -> list RegionNode -> Prop :=
| Pruned_nil : PrunedForest [] []
| Pruned_drop n out inp : PrunedForest out inp -> PrunedForest out (n :: inp)
| Pruned_keep m n out inp :
    SameButChildren m n ->
    PrunedForest (childList m) (childList n) ->
    PrunedForest out inp ->
    PrunedForest (m :: out) (n :: inp).

(** The conclusion of filter soundness for one node of the result. *)
Definition MatchesOrLeadsToMatch (atlasKeys : list string) (query : string)
    (node : RegionNode) : Prop :=
  SelfMatches atlasKeys query node \/
  exists d, Descendant d node /\ SelfMatches atlasKeys query d.

(** ** The dataset of the end-to-end scenario *)

Module Scenario.

Definition r2 (i : Z) : RegionNode :=
  {| key := "r2"; id := i; name := "Visual Cortex"; children := None;
     fields := {[ "A1" := JString "VISp" ]} |}.

Definition r1 (i1 i2 : Z) : RegionNode :=
  {| key := "r1"; id := i1; name := "Cortex"; children := Some [r2 i2];
     fields := {[ "A1" := JNull ]} |}.

Definition dataset (i1 i2 total : Z) : RegionData :=
  {| rd_atlases := ["Atlas One"]; rd_atlasKeys := ["A1"];
     rd_totalRegions := total; rd_regions := [r1 i1 i2] |}.

(** The state once the dataset is loaded and the query typed. *)
Definition searching (i1 i2 total : Z) (q : string) : AppState :=
  setSearchText q (fst (loadSettled (Fulfilled (dataset i1 i2 total)) initialState)).

End Scenario.

(** ** Layout and columns *)

(** The value of [useBreakpoint()], read at [sm], [md] and [lg]; a
    breakpoint that is not set reads as [false]. *)
Record Screens : Type :=
  mkScreens { sm : bool; md : bool; lg : bool }.

(** [calculateHeight]: [current] is [tableContainerRef.current.clientHeight]
    when the ref is attached, [tableHeight] the cell it sets. *)
Definition calculateHeight (current : option Z) (tableHeight : Z) : Z :=
  match current with
  | Some height => Z.max (height - 55) 200
  | None => tableHeight
  end.

(** The initial value of the [tableHeight] cell. *)
Definition initialTableHeight : Z := 400.

Definition nameColWidth (screens : Screens) : Z :=
  if md screens then 350 else if sm screens then 250 else 180.

Definition atlasColWidth (screens : Screens) : Z :=
  if lg screens then 180 else if md screens then 140 else 100.

Definition totalScrollX (screens : Screens) (atlasKeys : list string) : Z :=
  nameColWidth screens + Z.of_nat (length atlasKeys) * atlasColWidth screens + 50.

(** [s.split(' ')[0]]: what comes before the first space. *)
Fixpoint firstWord (s : string) : string :=
  match s with
  | EmptyString => EmptyString
  | String c s' => if Ascii.eqb c " " then EmptyString else String c (firstWord s')
  end.

(** [a || b] for a string [a] that may be [undefined]: [b] when [a] is not
    there or empty. *)
Definition orElse (a : option string) (b : string) : string :=
  match a with
  | Some (String c r) => String c r
  | _ => b
  end.

(** The [title] of the column of the atlas key at [index]. *)
Definition atlasTitle (screens : Screens) (atlases : list string) (index : nat)
    (k : string) : string :=
  if md screens
  then orElse (nth_error atlases index) k
  else orElse (option_map firstWord (nth_error atlases index)) k.

(** A column descriptor without its [render] function, which is
    [renderName] for the name column and [renderAtlas] for the others. *)
Record Column : Type :=
  mkColumn {
    col_title : string;
    col_dataIndex : string;
    col_key : string;
    col_width : Z;
    col_fixed : option string;
    col_align : option string
  }.

Definition nameColumn (screens : Screens) : Column :=
  {| col_title := "Region Name"; col_dataIndex := "name"; col_key := "name";
     col_width := nameColWidth screens;
     col_fixed := if sm screens then Some "left" else None;
     col_align := None |}.

Definition atlasColumn (screens : Screens) (atlases : list string) (index : nat)
    (k : string) : Column :=
  {| col_title := atlasTitle screens atlases index k; col_dataIndex := k;
     col_key := k; col_width := atlasColWidth screens;
     col_fixed := None; col_align := Some "center" |}.

(** [columns]: the name column, then one column per atlas key. *)
Definition columns (screens : Screens) (atlases atlasKeys : list string)
    : list Column :=
  nameColumn screens :: imap (atlasColumn screens atlases) atlasKeys.

(** What an atlas cell shows: the placeholder dash, or the highlighted value
    in a monospace span. *)
Inductive Cell : Type :=
| Dash
| Mono (content : list Segment).

(** [render] of the name column. *)
Definition renderName (searchText : string) (value : string) : list Segment :=
  highlightText value searchText.

(** [render] of an atlas column, on its declared argument [string | null]:
    [None] is [null]; [!value] holds of [null] and of the empty string. *)
Definition renderAtlas (searchText : string) (value : option string) : Cell :=
  match value with
  | Some (String c r) => Mono (highlightText (String c r) searchText)
  | _ => Dash
  end.

Definition isMatched (seg : Segment) : bool :=
  match seg with
  | Matched _ => true
  | Plain _ => false
  end.

(** The characters of a segment. *)
Definition segmentText (seg : Segment) : string :=
  match seg with
  | Plain s => s
  | Matched s => s
  end.

(** The characters of a sequence of segments, in order. *)
Definition segmentsText (segs : list Segment) : string :=
  fold_right String.append "" (map segmentText segs).

(** The sum of the widths of some columns. *)
Definition columnsWidth (cols : list Column) : Z :=
  fold_right Z.add 0%Z (map col_width cols).

(** Some piece of the cell is wrapped in [<mark>]. *)
Definition cellMarked (cell : Cell) : bool :=
  match cell with
  | Dash => false
  | Mono content => existsb isMatched content
  end.

(** The argument [render] receives for the atlas key [k] of a node whose
    value there is a string or [null]. *)
Definition atlasValue (node : RegionNode) (k : string) : option string :=
  match getProp node k with
  | JString s => Some s
  | _ => None
  end.

(** [rowClassName] of the table in the second listing of [App.tsx]. *)
Definition rowClassName (searchText : string) (record : RegionNode) : string :=
  if truthy searchText
     && includes (toLowerCase (name record)) (toLowerCase searchText)
  then "highlight-row"
  else "".

(** What the button and row handlers of [App] do to the state. *)
Inductive Event : Type :=
| SearchChanged (value : string)
| ExpandAllClicked
| CollapseAllClicked
| RowToggled (expanded : bool) (record : RegionNode).

Definition handle (ev : Event) (st : AppState) : AppState :=
  match ev with
  | SearchChanged value => setSearchText value st
  | ExpandAllClicked => expandAll st
  | CollapseAllClicked => collapseAll st
  | RowToggled expanded record => onExpand expanded record st
  end.

(** * Proofs *)

(** ** Induction on region trees *)

Section RegionNodeInduction.
Variable P : RegionNode -> Prop.
Hypothesis leaf_case : forall k i n f, P (mkRegionNode k i n None f).
Hypothesis node_case :
  forall k i n cs f, Forall P cs -> P (mkRegionNode k i n (Some cs) f).

Lemma RegionNode_ind : forall node, P node.
Proof.
  fix IH 1. intros [k i n [cs|] f].
  - apply node_case. induction cs as [|c cs IHcs]; constructor.
    + apply IH.
    + exact IHcs.
  - apply leaf_case.
Qed.
End RegionNodeInduction.

Lemma forest_ind (P : RegionNode -> Prop) :
  (forall node, Forall P (childList node) -> P node) ->
  forall forest, Forall P forest.
Proof.
  intros step.
  assert (all : forall node, P node).
  { induction node using RegionNode_ind; apply step; simpl; auto. }
  intros forest. apply Forall_forall. auto.
Qed.

(** ** Induction on forests *)

Lemma forest_rec_ind (Q : list RegionNode -> Prop) :
  Q [] ->
  (forall node rest, Q (childList node) -> Q rest -> Q (node :: rest)) ->
  forall forest, Q forest.
Proof.
  intros Hnil Hcons.
  assert (lift : forall l, Forall (fun c => Q (childList c)) l -> Q l).
  { induction 1; auto. }
  intros forest. apply lift. apply forest_ind. intros node IH. now apply lift.
Qed.

(** ** Loops that push to an array *)

(** A [for ... of] loop whose body appends to an accumulator appends the
    concatenation of what each iteration appends. *)
Lemma fold_left_push {A B : Type} (body : A -> list B -> list B)
    (pushed : A -> list B) (items : list A) :
  Forall (fun a => forall acc, body a acc = acc ++ pushed a) items ->
  forall acc,
    fold_left (fun acc a => body a acc) items acc = acc ++ flat_map pushed items.
Proof.
  induction 1 as [|a items Ha _ IH]; intros acc; simpl.
  - now rewrite app_nil_r.
  - rewrite Ha, IH. now rewrite <- app_assoc.
Qed.

(** ** Traversal *)

Lemma traverse_item_push (item : RegionNode) (keys : list string) :
  traverse_item item keys = keys ++ collectKeys_node item.
Proof.
  revert keys. induction item as [k i n f|k i n cs f IH] using RegionNode_ind;
    intros keys; simpl.
  - reflexivity.
  - rewrite (fold_left_push traverse_item collectKeys_node cs IH).
    now rewrite <- app_assoc.
Qed.

Lemma traverse_push (items : list RegionNode) (keys : list string) :
  traverse items keys = keys ++ collectKeys items.
Proof.
  unfold traverse, collectKeys. apply fold_left_push.
  apply Forall_forall. intros item _ acc. apply traverse_item_push.
Qed.

Lemma getAllKeys_collectKeys (nodes : list RegionNode) :
  getAllKeys nodes = collectKeys nodes.
Proof. unfold getAllKeys. now rewrite traverse_push. Qed.

Lemma collectKeys_node_unfold (node : RegionNode) :
  collectKeys_node node = key node :: collectKeys (childList node).
Proof. destruct node as [k i n [cs|] f]; reflexivity. Qed.

Lemma nodesOf_node_unfold (node : RegionNode) :
  nodesOf_node node = node :: nodesOf (childList node).
Proof. destruct node as [k i n [cs|] f]; reflexivity. Qed.

Lemma nodesOf_cons (node : RegionNode) (rest : list RegionNode) :
  nodesOf (node :: rest) = node :: nodesOf (childList node) ++ nodesOf rest.
Proof. unfold nodesOf at 1. simpl. now rewrite nodesOf_node_unfold. Qed.

Lemma collectKeys_cons (node : RegionNode) (rest : list RegionNode) :
  collectKeys (node :: rest)
  = key node :: collectKeys (childList node) ++ collectKeys rest.
Proof. unfold collectKeys at 1. simpl. now rewrite collectKeys_node_unfold. Qed.

Lemma collectKeys_nodesOf (forest : list RegionNode) :
  collectKeys forest = map key (nodesOf forest).
Proof.
  enough (H : Forall (fun node => collectKeys_node node = map key (nodesOf_node node))
                     forest).
  { unfold collectKeys, nodesOf. induction H as [|a l Ha _ IH]; simpl.
    - reflexivity.
    - now rewrite map_app, Ha, IH. }
  apply forest_ind. intros node IH.
  rewrite collectKeys_node_unfold, nodesOf_node_unfold. simpl. f_equal.
  unfold collectKeys, nodesOf. induction IH as [|a l Ha _ IHl]; simpl.
  - reflexivity.
  - now rewrite map_app, Ha, IHl.
Qed.

Lemma size_node_unfold (node : RegionNode) :
  size_node node = S (forestSize (childList node)).
Proof. destruct node as [k i n [cs|] f]; reflexivity. Qed.

Lemma nodesOf_length (forest : list RegionNode) :
  length (nodesOf forest) = forestSize forest.
Proof.
  induction forest as [|node rest IHc IHr] using forest_rec_ind; [reflexivity|].
  rewrite nodesOf_cons. unfold forestSize. simpl.
  rewrite length_app, size_node_unfold, IHc, IHr. reflexivity.
Qed.

Lemma InForest_cons (n node : RegionNode) (rest : list RegionNode) :
  InForest n (node :: rest)
  <-> n = node \/ InForest n (childList node) \/ InForest n rest.
Proof.
  split.
  - intros H. inversion H as [? ? Hin|? p ? Hin Hsub]; subst.
    + destruct Hin as [->|Hin]; [now left|]. right; right. now apply InForest_root.
    + destruct Hin as [->|Hin]; [now right; left|].
      right; right. now apply InForest_child with p.
  - intros [->|[H|H]].
    + apply InForest_root. now left.
    + apply InForest_child with node; [now left|exact H].
    + inversion H as [? ? Hin|? p ? Hin Hsub]; subst.
      * apply InForest_root. now right.
      * apply InForest_child with p; [now right|exact Hsub].
Qed.

Lemma InForest_nil (n : RegionNode) : ~ InForest n [].
Proof. intros H. inversion H as [? ? Hin|? p ? Hin Hsub]; subst; destruct Hin. Qed.

Lemma InForest_app (n : RegionNode) (f g : list RegionNode) :
  InForest n (f ++ g) <-> InForest n f \/ InForest n g.
Proof.
  induction f as [|a f IH]; simpl.
  - split; [now right|]. intros [H|H]; [now apply InForest_nil in H|exact H].
  - rewrite !InForest_cons, IH. tauto.
Qed.

Lemma InForest_nodesOf (n : RegionNode) (forest : list RegionNode) :
  InForest n forest <-> In n (nodesOf forest).
Proof.
  enough (H : Forall (fun node => forall m,
                        InForest m (childList node) <-> In m (nodesOf (childList node)))
                     forest).
  { induction H as [|a l Ha _ IH].
    - simpl. split; [intros H; now apply InForest_nil in H|tauto].
    - rewrite InForest_cons, nodesOf_cons. simpl. rewrite in_app_iff, Ha, IH.
      intuition congruence. }
  apply forest_ind. intros node IH m.
  induction IH as [|a l Ha _ IHl].
  - simpl. split; [intros H; now apply InForest_nil in H|tauto].
  - rewrite InForest_cons, nodesOf_cons. simpl. rewrite in_app_iff, Ha, IHl.
    intuition congruence.
Qed.

(** ** Filter *)

Lemma filterTree_step_push (ak : list string) (q : string) (node : RegionNode)
    (result : list RegionNode) :
  filterTree_step ak q node result
  = result ++ (if included ak q node then [emitted ak q node] else []).
Proof.
  destruct node as [k i n [cs|] f]; simpl;
    unfold included, emitted, filteredChildrenOf; simpl.
  - fold (filterTree ak cs q).
    match goal with |- context [if ?c then _ ++ _ else _] => destruct c end;
      simpl; now rewrite ?app_nil_r.
  - match goal with |- context [if ?c then _ ++ _ else _] => destruct c end;
      simpl; now rewrite ?app_nil_r.
Qed.

Lemma filterTree_flat_map (ak : list string) (q : string) (nodes : list RegionNode) :
  filterTree ak nodes q
  = flat_map (fun n => if included ak q n then [emitted ak q n] else []) nodes.
Proof.
  unfold filterTree.
  rewrite (fold_left_push (filterTree_step ak q)
             (fun n => if included ak q n then [emitted ak q n] else [])).
  - reflexivity.
  - apply Forall_forall. intros n _ acc. apply filterTree_step_push.
Qed.

Lemma filterTree_nil (ak : list string) (q : string) : filterTree ak [] q = [].
Proof. reflexivity. Qed.

Lemma filterTree_cons (ak : list string) (q : string) (node : RegionNode)
    (rest : list RegionNode) :
  filterTree ak (node :: rest) q
  = (if included ak q node then [emitted ak q node] else []) ++ filterTree ak rest q.
Proof. now rewrite !filterTree_flat_map. Qed.

Lemma filterTree_app (ak : list string) (q : string) (xs ys : list RegionNode) :
  filterTree ak (xs ++ ys) q = filterTree ak xs q ++ filterTree ak ys q.
Proof. rewrite !filterTree_flat_map. apply flat_map_app. Qed.

Lemma filterTree_map_filter (ak : list string) (q : string) (nodes : list RegionNode) :
  filterTree ak nodes q = map (emitted ak q) (List.filter (included ak q) nodes).
Proof.
  induction nodes as [|n nodes IH]; [reflexivity|].
  rewrite filterTree_cons, IH. simpl. now destruct (included ak q n).
Qed.

(** ** What the filter keeps *)

Lemma childList_withChildren (node : RegionNode) (c : option (list RegionNode)) :
  childList (withChildren node c) = match c with Some cs => cs | None => [] end.
Proof. reflexivity. Qed.

Lemma childList_emitted (ak : list string) (q : string) (node : RegionNode) :
  childList (emitted ak q node) = filterTree ak (childList node) q.
Proof.
  unfold emitted, filteredChildrenOf, childList at 2.
  destruct (children node) as [cs|]; simpl; [|reflexivity].
  destruct (filterTree ak cs q); reflexivity.
Qed.

Lemma nonEmpty_filteredChildrenOf (ak : list string) (q : string) (node : RegionNode) :
  nonEmpty (filteredChildrenOf ak q node) = true
  <-> filterTree ak (childList node) q <> [].
Proof.
  unfold filteredChildrenOf, childList.
  destruct (children node) as [cs|]; simpl.
  - destruct (filterTree ak cs q); simpl; split; congruence.
  - split; [discriminate|]. intros H. now contradiction H.
Qed.

Lemma sameButChildren_emitted (ak : list string) (q : string) (node : RegionNode) :
  SameButChildren (emitted ak q node) node.
Proof. repeat split. Qed.

Lemma getProp_withChildren (node : RegionNode) (c : option (list RegionNode))
    (k : string) :
  k <> "children" -> getProp (withChildren node c) k = getProp node k.
Proof.
  intros Hk. unfold getProp. simpl.
  destruct (String.eqb_spec k "children") as [->|_]; [now contradiction Hk|].
  reflexivity.
Qed.

Lemma getProp_withChildren_string (node : RegionNode) (c : option (list RegionNode))
    (k s : string) :
  getProp node k = JString s -> getProp (withChildren node c) k = JString s.
Proof.
  intros H. rewrite getProp_withChildren; [exact H|].
  intros ->. unfold getProp in H. simpl in H. now destruct (children node).
Qed.

Lemma filterTree_InForest_inv (ak : list string) (q : string)
    (forest : list RegionNode) (m : RegionNode) :
  InForest m (filterTree ak forest q) ->
  exists n, InForest n forest /\ included ak q n = true /\ m = emitted ak q n.
Proof.
  revert m. induction forest as [|node rest IHc IHr] using forest_rec_ind; intros m.
  - rewrite filterTree_nil. intros H. now apply InForest_nil in H.
  - rewrite filterTree_cons, InForest_app. intros [H|H].
    + destruct (included ak q node) eqn:Hinc; [|now apply InForest_nil in H].
      apply InForest_cons in H. destruct H as [->|[H|H]].
      * exists node. split; [apply InForest_cons; now left|now split].
      * rewrite childList_emitted in H. destruct (IHc m H) as (n & Hn & Hi & Hm).
        exists n. split; [apply InForest_cons; now right; left|now split].
      * now apply InForest_nil in H.
    + destruct (IHr m H) as (n & Hn & Hi & Hm).
      exists n. split; [apply InForest_cons; now right; right|now split].
Qed.

Lemma filterTree_InForest_intro (ak : list string) (q : string)
    (forest : list RegionNode) (n : RegionNode) :
  InForest n forest -> included ak q n = true ->
  InForest (emitted ak q n) (filterTree ak forest q).
Proof.
  revert n. induction forest as [|node rest IHc IHr] using forest_rec_ind; intros n.
  - intros H. now apply InForest_nil in H.
  - rewrite filterTree_cons, InForest_app, InForest_cons.
    intros [->|[H|H]] Hinc.
    + left. rewrite Hinc. apply InForest_root. now left.
    + left. specialize (IHc n H Hinc).
      assert (Hne : filterTree ak (childList node) q <> []).
      { intros E. rewrite E in IHc. now apply InForest_nil in IHc. }
      assert (Hnode : included ak q node = true).
      { unfold included. apply nonEmpty_filteredChildrenOf in Hne. rewrite Hne.
        apply orb_true_r. }
      rewrite Hnode. apply InForest_child with (emitted ak q node); [now left|].
      now rewrite childList_emitted.
    + right. now apply IHr.
Qed.

Lemma filterTree_pruned (ak : list string) (q : string) (forest : list RegionNode) :
  PrunedForest (filterTree ak forest q) forest.
Proof.
  induction forest as [|node rest IHc IHr] using forest_rec_ind.
  - constructor.
  - rewrite filterTree_cons. destruct (included ak q node); simpl.
    + apply Pruned_keep; [apply sameButChildren_emitted| |exact IHr].
      now rewrite childList_emitted.
    + now apply Pruned_drop.
Qed.

(** ** Matching *)

Lemma nameMatch_query (query : string) (node : RegionNode) :
  nameMatch (toLowerCase query) node = caseInsensitiveContains (name node) query.
Proof. reflexivity. Qed.

Lemma acronymMatch_query (ak : list string) (query : string) (node : RegionNode) :
  acronymMatch ak (toLowerCase query) node = true
  <-> exists k s, In k ak /\ getProp node k = JString s /\
                  caseInsensitiveContains s query = true.
Proof.
  unfold acronymMatch. rewrite existsb_exists. split.
  - intros (k & Hk & Hv). destruct (getProp node k) eqn:E; try discriminate.
    now exists k, s.
  - intros (k & s & Hk & E & Hv). exists k. split; [exact Hk|]. now rewrite E.
Qed.

Lemma selfMatches_included (ak : list string) (query : string) (node : RegionNode) :
  SelfMatches ak query node -> included ak (toLowerCase query) node = true.
Proof.
  unfold included. intros [H|H].
  - now rewrite nameMatch_query, H.
  - apply acronymMatch_query in H. rewrite H. now rewrite orb_true_r.
Qed.

Lemma selfMatches_emitted (ak : list string) (query q : string) (node : RegionNode) :
  SelfMatches ak query node -> SelfMatches ak query (emitted ak q node).
Proof.
  intros [H|(k & s & Hk & E & Hv)]; [now left|right].
  exists k, s. split; [exact Hk|]. split; [|exact Hv].
  now apply getProp_withChildren_string.
Qed.

Lemma selfMatches_emitted_inv (ak : list string) (query q : string)
    (node : RegionNode) :
  SelfMatches ak query (emitted ak q node) -> SelfMatches ak query node.
Proof.
  intros [H|(k & s & Hk & E & Hv)]; [now left|right].
  exists k, s. split; [exact Hk|]. split; [|exact Hv].
  rewrite <- E. symmetry. apply getProp_withChildren.
  intros ->. unfold getProp in E. simpl in E.
  now destruct (if nonEmpty (filteredChildrenOf ak q node)
                then filteredChildrenOf ak q node else None).
Qed.

Lemma included_sound (ak : list string) (query : string) (node : RegionNode) :
  included ak (toLowerCase query) node = true ->
  MatchesOrLeadsToMatch ak query (emitted ak (toLowerCase query) node).
Proof.
  set (q := toLowerCase query).
  enough (H : Forall (fun n => included ak q n = true ->
                               MatchesOrLeadsToMatch ak query (emitted ak q n)) [node]).
  { now inversion H. }
  apply forest_ind. clear node. intros node IH Hinc.
  unfold included in Hinc. apply orb_true_iff in Hinc.
  destruct Hinc as [Hself|Hkids].
  - left. apply selfMatches_emitted. apply orb_true_iff in Hself.
    destruct Hself as [H|H]; [now left|right]. now apply acronymMatch_query.
  - right. apply nonEmpty_filteredChildrenOf in Hkids.
    rewrite filterTree_map_filter in Hkids.
    destruct (List.filter (included ak q) (childList node)) as [|c l] eqn:E;
      [now contradiction Hkids|].
    assert (Hc : In c (List.filter (included ak q) (childList node))).
    { rewrite E. now left. }
    apply filter_In in Hc. destruct Hc as [Hin Hci].
    assert (Hem : In (emitted ak q c) (childList (emitted ak q node))).
    { rewrite childList_emitted, filterTree_map_filter, E. now left. }
    rewrite List.Forall_forall in IH. destruct (IH c Hin Hci) as [Hs|(d & Hd & Hs)].
    + exists (emitted ak q c). split; [now apply InForest_root|exact Hs].
    + exists d. split; [|exact Hs].
      now apply InForest_child with (emitted ak q c).
Qed.

Lemma filteredData_searching (ak : list string) (data : list RegionNode)
    (query : string) :
  truthy (trim query) = true ->
  filteredData ak data query = filterTree ak data (toLowerCase query).
Proof. unfold filteredData. now intros ->. Qed.

(** * The properties of the specification *)

(** C5 (traversal completeness).  [getAllKeys] is the pre-order flattening
    the specification describes: it is the specification's [collectKeys];
    the key of a node comes first, then the keys of its children in order,
    then the keys of the siblings that follow; and the result lists the key
    of every node of the forest, one entry per node, as many entries as the
    forest has nodes, so that no key is added, dropped or repeated. *)
Theorem getAllKeys_preorder (forest : list RegionNode) :
  getAllKeys forest = collectKeys forest /\
  getAllKeys [] = [] /\
  (forall node rest,
      getAllKeys (node :: rest)
      = key node :: getAllKeys (childList node) ++ getAllKeys rest) /\
  getAllKeys forest = map key (nodesOf forest) /\
  (forall n, In n (nodesOf forest) <-> InForest n forest) /\
  length (getAllKeys forest) = forestSize forest.
Proof.
  split; [apply getAllKeys_collectKeys|].
  split; [reflexivity|].
  split; [intros node rest; rewrite !getAllKeys_collectKeys; apply collectKeys_cons|].
  assert (E : getAllKeys forest = map key (nodesOf forest)).
  { rewrite getAllKeys_collectKeys. apply collectKeys_nodesOf. }
  split; [exact E|].
  split; [intros n; symmetry; apply InForest_nodesOf|].
  rewrite E, length_map. apply nodesOf_length.
Qed.

(** C1 (filter soundness).  When the trimmed query is not empty, every node
    of the filtered tree, at any depth, matches the query by itself or has a
    descendant in the filtered tree that does; and it is the copy of a node of
    the input that matches by itself or has a descendant in the input that
    does. *)
Theorem filter_soundness (ak : list string) (data : list RegionNode)
    (query : string) (m : RegionNode) :
  truthy (trim query) = true ->
  InForest m (filteredData ak data query) ->
  (SelfMatches ak query m \/
   exists d, Descendant d m /\ SelfMatches ak query d) /\
  exists n, InForest n data /\ SameButChildren m n /\
    (SelfMatches ak query n \/
     exists d, Descendant d n /\ SelfMatches ak query d).
Proof.
  intros Hq. rewrite (filteredData_searching ak data query Hq). intros Hm.
  apply filterTree_InForest_inv in Hm. destruct Hm as (n & Hn & Hinc & ->).
  pose proof (included_sound ak query n Hinc) as Hsound.
  split; [exact Hsound|].
  exists n. split; [exact Hn|]. split; [apply sameButChildren_emitted|].
  destruct Hsound as [Hs|(d & Hd & Hs)].
  - left. now apply selfMatches_emitted_inv in Hs.
  - right. unfold Descendant in Hd. rewrite childList_emitted in Hd.
    apply filterTree_InForest_inv in Hd. destruct Hd as (d0 & Hd0 & _ & ->).
    exists d0. split; [exact Hd0|]. now apply selfMatches_emitted_inv in Hs.
Qed.

Lemma filter_soundness_witness :
  truthy (trim "visp") = true /\
  InForest (withChildren (Scenario.r1 1 2) (Some [Scenario.r2 2]))
           (filteredData ["A1"] [Scenario.r1 1 2] "visp") /\
  exists d, Descendant d (withChildren (Scenario.r1 1 2) (Some [Scenario.r2 2])) /\
            SelfMatches ["A1"] "visp" d.
Proof.
  assert (Hin : InForest (withChildren (Scenario.r1 1 2) (Some [Scenario.r2 2]))
                         (filteredData ["A1"] [Scenario.r1 1 2] "visp")).
  { apply InForest_root. left. reflexivity. }
  split; [reflexivity|]. split; [exact Hin|].
  destruct (filter_soundness ["A1"] [Scenario.r1 1 2] "visp" _ eq_refl Hin)
    as [[[H|(k & s & Hk & Hv & _)]|H] _].
  - discriminate H.
  - destruct Hk as [<-|[]]. discriminate Hv.
  - exact H.
Defined.

(** C2 (filter completeness, order preserved).  When the trimmed query is
    not empty, every node of the tree that matches the query by itself has
    a copy in the filtered tree whose children are a pruning of its own, and
    the filtered tree is the input with subtrees deleted: the nodes that stay
    keep their order among their siblings. *)
Theorem filter_completeness_order (ak : list string) (data : list RegionNode)
    (query : string) :
  truthy (trim query) = true ->
  (forall n, InForest n data -> SelfMatches ak query n ->
     exists m, InForest m (filteredData ak data query) /\
               SameButChildren m n /\
               PrunedForest (childList m) (childList n)) /\
  PrunedForest (filteredData ak data query) data.
Proof.
  intros Hq. rewrite (filteredData_searching ak data query Hq). split.
  - intros n Hn Hself. exists (emitted ak (toLowerCase query) n).
    split; [|split].
    + apply filterTree_InForest_intro; [exact Hn|]. now apply selfMatches_included.
    + apply sameButChildren_emitted.
    + rewrite childList_emitted. apply filterTree_pruned.
  - apply filterTree_pruned.
Qed.

Lemma filter_completeness_order_witness :
  truthy (trim "visp") = true /\
  (forall n, InForest n [Scenario.r1 1 2] -> SelfMatches ["A1"] "visp" n ->
     exists m, InForest m (filteredData ["A1"] [Scenario.r1 1 2] "visp") /\
               SameButChildren m n /\
               PrunedForest (childList m) (childList n)) /\
  PrunedForest (filteredData ["A1"] [Scenario.r1 1 2] "visp") [Scenario.r1 1 2].
Proof.
  split; [reflexivity|].
  apply (filter_completeness_order ["A1"] [Scenario.r1 1 2] "visp").
  reflexivity.
Defined.

Lemma NoDup_map_inj {A B : Type} (f : A -> B) (l : list A) (a b : A) :
  List.NoDup (map f l) -> In a l -> In b l -> f a = f b -> a = b.
Proof.
  induction l as [|x l IH]; simpl; [tauto|].
  intros Hnd Ha Hb E. apply List.NoDup_cons_iff in Hnd. destruct Hnd as [Hx Hnd].
  destruct Ha as [->|Ha], Hb as [->|Hb]; auto.
  - exfalso. apply Hx. rewrite E. now apply in_map.
  - exfalso. apply Hx. rewrite <- E. now apply in_map.
Qed.

(** C10 (frame property of the filter).  When the trimmed query is not
    empty, the filtered tree is the input with subtrees deleted, and every
    node of it is a copy of a node of the input in which only [children] may
    differ: key, id, name and every property other than [children], hence
    every atlas value, are those of that node.  When the keys of the input
    are pairwise distinct, that node is the only one with this key. *)
Theorem filter_frame (ak : list string) (data : list RegionNode) (query : string) :
  truthy (trim query) = true ->
  PrunedForest (filteredData ak data query) data /\
  forall m, InForest m (filteredData ak data query) ->
    exists n, InForest n data /\
      m = withChildren n (children m) /\
      key m = key n /\ id m = id n /\ name m = name n /\ fields m = fields n /\
      (forall k, k <> "children" -> getProp m k = getProp n k) /\
      (List.NoDup (getAllKeys data) ->
       forall n', InForest n' data -> key n' = key m -> n' = n).
Proof.
  intros Hq. rewrite (filteredData_searching ak data query Hq).
  split; [apply filterTree_pruned|].
  intros m Hm. apply filterTree_InForest_inv in Hm.
  destruct Hm as (n & Hn & _ & ->). exists n.
  split; [exact Hn|]. split; [reflexivity|]. do 4 (split; [reflexivity|]).
  split; [intros k Hk; now apply getProp_withChildren|].
  intros Hnd n' Hn' Hkey.
  rewrite getAllKeys_collectKeys, collectKeys_nodesOf in Hnd.
  apply InForest_nodesOf in Hn, Hn'.
  now apply (NoDup_map_inj key (nodesOf data)).
Qed.

Lemma filter_frame_witness :
  truthy (trim "visp") = true /\
  PrunedForest (filteredData ["A1"] [Scenario.r1 1 2] "visp") [Scenario.r1 1 2] /\
  forall m, InForest m (filteredData ["A1"] [Scenario.r1 1 2] "visp") ->
    exists n, InForest n [Scenario.r1 1 2] /\
      m = withChildren n (children m) /\
      key m = key n /\ id m = id n /\ name m = name n /\ fields m = fields n /\
      (forall k, k <> "children" -> getProp m k = getProp n k) /\
      (List.NoDup (getAllKeys [Scenario.r1 1 2]) ->
       forall n', InForest n' [Scenario.r1 1 2] -> key n' = key m -> n' = n).
Proof.
  split; [reflexivity|].
  apply (filter_frame ["A1"] [Scenario.r1 1 2] "visp"). reflexivity.
Defined.

Lemma valueMatch_query (query : string) (v : JSValue) :
  valueMatch (toLowerCase query) v
  = match v with
    | JString s => caseInsensitiveContains s query
    | _ => false
    end.
Proof. reflexivity. Qed.

(** C4 (inclusion rule and leaf collapse).  When the trimmed query is not
    empty, a node is kept exactly when its name matches, or an atlas key holds
    a string that matches, or its filtered children are not empty; the node
    pushed has the filtered children for children, and no [children] at all
    when there are none left, so that it never carries an empty sequence.
    Only strings are looked at: an atlas value that is [null] matches no
    query, the query [null] included. *)
Theorem filter_inclusion_rule (ak : list string) (query : string)
    (before after : list RegionNode) (node : RegionNode) :
  truthy (trim query) = true ->
  let nameM := caseInsensitiveContains (name node) query in
  let atlasM :=
    existsb (fun k => match getProp node k with
                      | JString s => caseInsensitiveContains s query
                      | _ => false
                      end) ak in
  let filteredChildren :=
    match children node with
    | Some cs => Some (filteredData ak cs query)
    | None => None
    end in
  let keep := nameM || atlasM || nonEmpty filteredChildren in
  filteredData ak (before ++ node :: after) query
  = filteredData ak before query
    ++ (if keep
        then [withChildren node
                (if nonEmpty filteredChildren then filteredChildren else None)]
        else [])
    ++ filteredData ak after query /\
  (forall m, In m (filteredData ak [node] query) ->
     children m <> Some [] /\
     (nonEmpty filteredChildren = false -> children m = None)) /\
  (atlasM = true <->
   exists k s, In k ak /\ getProp node k = JString s /\
               caseInsensitiveContains s query = true) /\
  (forall k, getProp node k = JNull ->
     valueMatch (toLowerCase query) (getProp node k) = false) /\
  ((forall k, In k ak -> getProp node k = JNull) -> atlasM = false).
Proof.
  intros Hq nameM atlasM filteredChildren keep.
  rewrite !(filteredData_searching ak _ query Hq).
  assert (Efc : filteredChildren = filteredChildrenOf ak (toLowerCase query) node).
  { unfold filteredChildren, filteredChildrenOf.
    destruct (children node) as [cs|]; [|reflexivity].
    now rewrite (filteredData_searching ak cs query Hq). }
  assert (Ekeep : keep = included ak (toLowerCase query) node).
  { unfold keep, included. now rewrite Efc. }
  split; [|split; [|split; [|split]]].
  - rewrite filterTree_app, filterTree_cons, Ekeep, Efc. reflexivity.
  - intros m. rewrite filterTree_cons, filterTree_nil, app_nil_r, <- Ekeep.
    destruct keep; [|intros []]. intros [<-|[]]. unfold emitted.
    rewrite <- Efc. simpl.
    destruct filteredChildren as [[|c l]|]; simpl; split; congruence.
  - apply (acronymMatch_query ak query node).
  - intros k ->. reflexivity.
  - intros Hnull. apply not_true_is_false. intros H.
    apply (acronymMatch_query ak query node) in H.
    destruct H as (k & s & Hk & E & _). rewrite (Hnull k Hk) in E. discriminate.
Qed.

Lemma filter_inclusion_rule_witness :
  truthy (trim "null") = true /\
  filteredData ["A1"] ([] ++ Scenario.r1 1 2 :: []) "null" = [] /\
  filteredData ["A1"] ([] ++ Scenario.r1 1 2 :: []) "cortex"
  = [withChildren (Scenario.r1 1 2) (Some [Scenario.r2 2])] /\
  filteredData ["A1"] ([] ++ Scenario.r1 1 2 :: []) "cor"
  = [withChildren (Scenario.r1 1 2) (Some [Scenario.r2 2])] /\
  filteredData ["A1"] ([] ++ Scenario.r1 1 2 :: []) "cortex "
  = [] /\
  filteredData ["A1"] ([] ++ Scenario.r1 1 2 :: []) "z" = [].
Proof.
  split; [reflexivity|].
  split; [|split; [|split; [|split]]].
  - destruct (filter_inclusion_rule ["A1"] "null" [] [] (Scenario.r1 1 2))
      as (E & _); [reflexivity|]. rewrite E. reflexivity.
  - destruct (filter_inclusion_rule ["A1"] "cortex" [] [] (Scenario.r1 1 2))
      as (E & _); [reflexivity|]. rewrite E. reflexivity.
  - destruct (filter_inclusion_rule ["A1"] "cor" [] [] (Scenario.r1 1 2))
      as (E & _); [reflexivity|]. rewrite E. reflexivity.
  - destruct (filter_inclusion_rule ["A1"] "cortex " [] [] (Scenario.r1 1 2))
      as (E & _); [reflexivity|]. rewrite E. reflexivity.
  - destruct (filter_inclusion_rule ["A1"] "z" [] [] (Scenario.r1 1 2))
      as (E & _); [reflexivity|]. rewrite E. reflexivity.
Defined.

(** ** The empty query *)

Lemma includes_empty (s : string) : includes s "" = true.
Proof. destruct s; reflexivity. Qed.

Lemma included_empty (ak : list string) (node : RegionNode) :
  included ak "" node = true.
Proof. unfold included, nameMatch. now rewrite includes_empty. Qed.

Lemma filterTree_empty_query (ak : list string) (tree : list RegionNode) :
  Forall2 LeafEquiv (filterTree ak tree "") tree.
Proof.
  induction tree as [|node rest IHc IHr] using forest_rec_ind.
  - constructor.
  - rewrite filterTree_cons, included_empty. simpl. constructor; [|exact IHr].
    constructor; [apply sameButChildren_emitted|].
    now rewrite childList_emitted.
Qed.

(** C3 (identity on the empty query).  When the trimmed query is empty,
    [filteredData] is the dataset itself, returned without a call of
    [filterTree]; and [filterTree] on the empty query gives back the tree up
    to the identification of an empty [children] sequence with a leaf. *)
Theorem filter_identity_on_empty_query (ak : list string) (data : list RegionNode)
    (query : string) :
  truthy (trim query) = false ->
  filteredData ak data query = data /\
  Forall2 LeafEquiv (filterTree ak data "") data.
Proof.
  intros Hq. split.
  - unfold filteredData. now rewrite Hq.
  - apply filterTree_empty_query.
Qed.

Lemma filter_identity_on_empty_query_witness :
  truthy (trim "  ") = false /\
  filteredData ["A1"] [Scenario.r1 1 2] "  " = [Scenario.r1 1 2] /\
  Forall2 LeafEquiv (filterTree ["A1"] [Scenario.r1 1 2] "") [Scenario.r1 1 2].
Proof.
  split; [reflexivity|].
  apply (filter_identity_on_empty_query ["A1"] [Scenario.r1 1 2] "  ").
  reflexivity.
Defined.

(** ** Expansion state *)

(** C7 (manual toggle).  An expand event makes the expanded keys the old
    ones and the key of the row; a collapse event makes them the old ones
    without that key, of which no occurrence is left.  Membership of every
    other key is as before, and nothing else in the state changes. *)
Theorem onExpand_membership (st : AppState) (record : RegionNode) :
  (forall k, In k (expandedKeys (onExpand true record st))
             <-> In k (expandedKeys st) \/ k = key record) /\
  (forall k, In k (expandedKeys (onExpand false record st))
             <-> In k (expandedKeys st) /\ k <> key record) /\
  count_occ string_dec (expandedKeys (onExpand false record st)) (key record) = 0 /\
  (forall expanded k, k <> key record ->
     (In k (expandedKeys (onExpand expanded record st)) <-> In k (expandedKeys st))) /\
  (forall expanded,
     onExpand expanded record st
     = setExpandedKeys (expandedKeys (onExpand expanded record st)) st).
Proof.
  assert (Hexp : forall k, In k (expandedKeys (onExpand true record st))
                           <-> In k (expandedKeys st) \/ k = key record).
  { intros k. simpl. rewrite in_app_iff. simpl. intuition congruence. }
  assert (Hcol : forall k, In k (expandedKeys (onExpand false record st))
                           <-> In k (expandedKeys st) /\ k <> key record).
  { intros k. simpl. rewrite filter_In.
    destruct (String.eqb_spec k (key record)); simpl; intuition congruence. }
  split; [exact Hexp|]. split; [exact Hcol|]. split; [|split].
  - apply count_occ_not_In. rewrite Hcol. tauto.
  - intros [|] k Hk; [rewrite Hexp|rewrite Hcol]; tauto.
  - intros [|]; reflexivity.
Qed.

(** C8 (auto-expand on search, match count).  When the trimmed query is not
    empty, the effect replaces the expanded keys by the keys of the filtered
    tree, the match count shown is their number, and the rest of the state
    stays.  On the dataset of the scenario and the query [visp] the filtered
    tree is [r1] with [r2] for its only child, the expanded keys become [r1]
    and [r2], and the count is 2. *)
Theorem autoExpand_search (st : AppState) :
  (truthy (trim (searchText st)) = true ->
     expandedKeys (autoExpand st) = getAllKeys (filteredDataOf st) /\
     expandedKeys (autoExpand st) = collectKeys (filteredDataOf st) /\
     matchCount st = Some (length (collectKeys (filteredDataOf st))) /\
     autoExpand st = setExpandedKeys (expandedKeys (autoExpand st)) st) /\
  (forall i1 i2 total,
     let s := Scenario.searching i1 i2 total "visp" in
     filteredDataOf s = [withChildren (Scenario.r1 i1 i2) (Some [Scenario.r2 i2])] /\
     Forall (fun n => getProp n "A1" = JNull /\ ~ SelfMatches (atlasKeys s) "visp" n)
            (filteredDataOf s) /\
     expandedKeys (autoExpand s) = ["r1"; "r2"] /\
     matchCount s = Some 2).
Proof.
  split.
  - intros Hq.
    assert (Hs : truthy (searchText st) = true).
    { unfold trim in Hq. destruct (searchText st); [discriminate|reflexivity]. }
    unfold autoExpand, matchCount. rewrite Hq, Hs. simpl.
    rewrite <- getAllKeys_collectKeys. auto.
  - intros i1 i2 total s.
    assert (E : filteredDataOf s
                = [withChildren (Scenario.r1 i1 i2) (Some [Scenario.r2 i2])]).
    { reflexivity. }
    split; [exact E|]. split; [|split; reflexivity].
    rewrite E. constructor; [|constructor]. split; [reflexivity|].
    intros [H|(k & v & Hk & Hv & _)]; [discriminate H|].
    destruct Hk as [<-|[]]. discriminate Hv.
Qed.

Lemma autoExpand_search_witness :
  truthy (trim (searchText (Scenario.searching 1 2 2 "visp"))) = true /\
  expandedKeys (autoExpand (Scenario.searching 1 2 2 "visp")) = ["r1"; "r2"].
Proof.
  split; [reflexivity|].
  destruct (autoExpand_search (Scenario.searching 1 2 2 "visp")) as [H _].
  destruct (H eq_refl) as [E _]. rewrite E. reflexivity.
Defined.

(** ** Loading *)

(** C9 (load failure).  When the fetch fails or the body does not parse, the
    error is caught and logged, [loading] becomes [false], the dataset,
    atlases, atlas keys and region count keep the values they had, which are
    the empty initial ones, so that no row is shown, and the one request made
    at startup is not repeated. *)
Theorem load_failure {Response : Type} (w : World Response) (st : AppState)
    (err : string) :
  fetch w (BASE_URL +:+ "regions.json") = Rejected err \/
  (exists res, fetch w (BASE_URL +:+ "regions.json") = Fulfilled res /\
               json w res = Rejected err) ->
  let st' := fst (loadData w st) in
  let log := snd (loadData w st) in
  log = [Fetch (BASE_URL +:+ "regions.json");
         ConsoleError "Failed to load regions:" err] /\
  length (List.filter isFetch log) = 1 /\
  loading st' = false /\
  st' = setLoading false st /\
  data st' = data st /\ atlases st' = atlases st /\
  atlasKeys st' = atlasKeys st /\ totalRegions st' = totalRegions st /\
  (data st = [] -> filteredDataOf st' = []) /\
  (st = initialState ->
   data st' = [] /\ atlases st' = [] /\ atlasKeys st' = [] /\ totalRegions st' = 0%Z).
Proof.
  intros Hfail st' log.
  assert (E : loadData w st
              = (setLoading false st,
                 [Fetch (BASE_URL +:+ "regions.json");
                  ConsoleError "Failed to load regions:" err])).
  { unfold loadData.
    destruct Hfail as [Hf|(res & Hf & Hj)]; rewrite Hf; simpl; [|rewrite Hj];
      reflexivity. }
  unfold st', log. rewrite E. simpl.
  repeat (split; [reflexivity|]). split.
  - intros Hd. unfold filteredDataOf, filteredData. simpl. rewrite Hd.
    now destruct (truthy (trim (searchText st))).
  - intros ->. repeat split.
Qed.

Lemma load_failure_witness :
  let w := {| fetch := fun _ => @Rejected unit "TypeError: Failed to fetch";
              json := fun _ => Rejected "unreachable" |} in
  fetch w (BASE_URL +:+ "regions.json") = Rejected "TypeError: Failed to fetch" /\
  snd (loadData w initialState)
  = [Fetch "/atlas_comparison_tree_web/regions.json";
     ConsoleError "Failed to load regions:" "TypeError: Failed to fetch"] /\
  loading (fst (loadData w initialState)) = false.
Proof.
  intros w. split; [reflexivity|].
  pose proof (load_failure w initialState "TypeError: Failed to fetch"
                (or_introl eq_refl)) as H.
  cbv zeta in H. destruct H as (Hlog & _ & Hload & _).
  split; [exact Hlog|exact Hload].
Defined.

(** ** Strings *)

Lemma toLowerCase_length (s : string) :
  String.length (toLowerCase s) = String.length s.
Proof. induction s as [|c s IH]; simpl; congruence. Qed.

Lemma append_String (c : ascii) (a b : string) :
  String c a +:+ b = String c (a +:+ b).
Proof. reflexivity. Qed.

Lemma sliceTo_sliceFrom (n : nat) (s : string) :
  sliceTo n s +:+ sliceFrom n s = s.
Proof.
  revert s. induction n as [|n IH]; intros [|c s]; try reflexivity.
  simpl sliceTo. simpl sliceFrom. now rewrite append_String, IH.
Qed.

Lemma sliceTo_length (n : nat) (s : string) :
  n <= String.length s -> String.length (sliceTo n s) = n.
Proof.
  revert s. induction n as [|n IH]; intros [|c s]; simpl; intros H;
    try reflexivity; try lia.
  rewrite IH; lia.
Qed.

Lemma sliceFrom_length (n : nat) (s : string) :
  String.length (sliceFrom n s) = String.length s - n.
Proof.
  revert s. induction n as [|n IH]; intros [|c s]; simpl; try reflexivity; try lia.
  apply IH.
Qed.

Lemma sliceFrom_add (n m : nat) (s : string) :
  sliceFrom (n + m) s = sliceFrom m (sliceFrom n s).
Proof.
  revert s. induction n as [|n IH]; intros s; simpl; [reflexivity|].
  destruct s as [|c s]; [now destruct m|apply IH].
Qed.

Lemma toLowerCase_sliceTo (n : nat) (s : string) :
  toLowerCase (sliceTo n s) = sliceTo n (toLowerCase s).
Proof.
  revert s. induction n as [|n IH]; intros [|c s]; simpl; try reflexivity.
  now rewrite IH.
Qed.

Lemma toLowerCase_sliceFrom (n : nat) (s : string) :
  toLowerCase (sliceFrom n s) = sliceFrom n (toLowerCase s).
Proof.
  revert s. induction n as [|n IH]; intros [|c s]; simpl; try reflexivity.
  apply IH.
Qed.

Lemma startsWith_sliceTo (s pat : string) :
  startsWith s pat = true <-> sliceTo (String.length pat) s = pat.
Proof.
  revert s. induction pat as [|p pat IH]; intros s; simpl.
  - split; reflexivity.
  - destruct s as [|c s]; [split; discriminate|].
    destruct (Ascii.eqb_spec p c) as [->|Hne].
    + rewrite IH. split; [now intros ->|congruence].
    + split; [discriminate|congruence].
Qed.

Lemma startsWith_length (s pat : string) :
  startsWith s pat = true -> String.length pat <= String.length s.
Proof.
  revert s. induction pat as [|p pat IH]; intros s; simpl; [lia|].
  destruct s as [|c s]; [discriminate|].
  destruct (Ascii.eqb p c); [|discriminate]. intros H. apply IH in H. simpl. lia.
Qed.

Lemma indexOf_includes (s pat : string) :
  indexOf s pat = None <-> includes s pat = false.
Proof.
  induction s as [|c s IH]; simpl.
  - destruct (startsWith "" pat); simpl; split; congruence.
  - destruct (startsWith (String c s) pat); simpl; [split; discriminate|].
    rewrite <- IH. destruct (indexOf s pat); simpl; split; congruence.
Qed.

Lemma indexOf_leftmost (s pat : string) (i : nat) :
  indexOf s pat = Some i ->
  startsWith (sliceFrom i s) pat = true /\
  i + String.length pat <= String.length s /\
  forall j, j < i -> startsWith (sliceFrom j s) pat = false.
Proof.
  revert i. induction s as [|c s IH]; intros i; simpl.
  - destruct (startsWith "" pat) eqn:E; [|discriminate].
    intros [= <-]. split; [exact E|]. split; [|lia].
    apply startsWith_length in E. simpl in *. lia.
  - destruct (startsWith (String c s) pat) eqn:E.
    + intros [= <-]. split; [exact E|]. split; [|lia].
      apply startsWith_length in E. simpl in *. lia.
    + destruct (indexOf s pat) as [i'|]; simpl; [|discriminate].
      intros [= <-]. destruct (IH i' eq_refl) as (H1 & H2 & H3).
      split; [exact H1|]. split; [simpl; lia|].
      intros [|j] Hj; [exact E|]. simpl. apply H3. lia.
Qed.

(** ** Highlighting *)

Lemma slice_from_0 (n : nat) (s : string) : slice 0 n s = sliceTo n s.
Proof. unfold slice. now rewrite Nat.sub_0_r. Qed.

Lemma slice_span (j len : nat) (s : string) :
  slice j (j + len) s = sliceTo len (sliceFrom j s).
Proof. unfold slice. f_equal. lia. Qed.

Lemma highlightTextWith_plain (lower : string -> string) (text query : string) :
  truthy (trim query) = false \/ text = "" \/
  includes (lower text) (lower query) = false ->
  highlightTextWith lower text query = [Plain text].
Proof.
  unfold highlightTextWith. intros [H|[H|H]].
  - now rewrite H.
  - rewrite H. simpl. now rewrite orb_true_r.
  - apply indexOf_includes in H. rewrite H.
    now destruct (negb (truthy (trim query)) || negb (truthy text)).
Qed.

(** The three segments, and that they make up the text: no property of the
    lowercasing is needed. *)
Lemma highlightTextWith_three (lower : string -> string) (text query : string) :
  truthy (trim query) = true -> text <> "" ->
  includes (lower text) (lower query) = true ->
  exists index,
    indexOf (lower text) (lower query) = Some index /\
    highlightTextWith lower text query
    = [Plain (slice 0 index text);
       Matched (slice index (index + String.length query) text);
       Plain (sliceFrom (index + String.length query) text)] /\
    text = slice 0 index text
           +:+ slice index (index + String.length query) text
           +:+ sliceFrom (index + String.length query) text.
Proof.
  intros Hq Ht Hc.
  destruct (indexOf (lower text) (lower query)) as [index|] eqn:E;
    [|apply indexOf_includes in E; congruence].
  exists index. split; [reflexivity|]. split.
  - unfold highlightTextWith. rewrite Hq, E.
    destruct text; [now contradiction Ht|]. reflexivity.
  - rewrite slice_from_0, slice_span, sliceFrom_add.
    now rewrite sliceTo_sliceFrom, sliceTo_sliceFrom.
Qed.

(** Where the mark is, when lowercasing keeps the positions of the text and
    the length of the query. *)
Lemma highlightTextWith_leftmost (lower : string -> string) (text query : string)
    (index : nat) :
  KeepsPositions lower text ->
  String.length (lower query) = String.length query ->
  indexOf (lower text) (lower query) = Some index ->
  String.length (slice 0 index text) = index /\
  String.length (slice index (index + String.length query) text)
  = String.length query /\
  lower (slice index (index + String.length query) text) = lower query /\
  forall j, j < index ->
    lower (slice j (j + String.length query) text) <> lower query.
Proof.
  intros [Hlen Hslice] Hqlen E.
  destruct (indexOf_leftmost _ _ _ E) as (Hat & Hfit & Hleft).
  rewrite Hlen, Hqlen in Hfit.
  split; [|split; [|split]].
  - rewrite slice_from_0. apply sliceTo_length. lia.
  - rewrite slice_span. apply sliceTo_length. rewrite sliceFrom_length. lia.
  - rewrite Hslice, slice_span. apply startsWith_sliceTo in Hat.
    now rewrite Hqlen in Hat.
  - intros j Hj Habs. rewrite Hslice, slice_span, <- Hqlen in Habs.
    apply startsWith_sliceTo in Habs. rewrite (Hleft j Hj) in Habs. discriminate.
Qed.

Lemma toLowerCase_keeps_positions (text : string) :
  KeepsPositions toLowerCase text.
Proof.
  split; [apply toLowerCase_length|].
  intros i j. unfold slice. now rewrite toLowerCase_sliceTo, toLowerCase_sliceFrom.
Qed.

(** A lowercasing that turns each of the two code units before [ab] into
    two, as the built-in does with U+0130, moves the place found in the
    lowercased text past the end of the text: the mark is empty and [ab] is
    not marked. *)
Lemma highlightTextWith_lengthened_text (lower : string -> string) (c b : ascii) :
  b <> "a"%char ->
  lower (String c (String c "ab")) = String "i" (String b (String "i" (String b "ab"))) ->
  lower "ab" = "ab" ->
  highlightTextWith lower (String c (String c "ab")) "ab"
  = [Plain (String c (String c "ab")); Matched ""; Plain ""].
Proof.
  intros Hb Htext Hquery. unfold highlightTextWith. rewrite Htext, Hquery.
  change (truthy (trim "ab")) with true.
  assert (E : indexOf (String "i" (String b (String "i" (String b "ab")))) "ab"
              = Some 4).
  { cbn [indexOf startsWith option_map].
    destruct (Ascii.eqb_spec "a" b) as [<-|_]; [now contradiction Hb|].
    reflexivity. }
  rewrite E. reflexivity.
Qed.

(** C6 (highlight formatter), as the code has it; [lower] is what
    [toLowerCase] does.  When the trimmed query is empty, or the text is
    empty, or the lowercased text does not contain the lowercased query, the
    result is the text as one plain segment.  Otherwise it is three segments
    that make up the text: a plain prefix, a mark, a plain suffix.  When
    lowercasing keeps the positions of the text and the length of the query,
    the mark is the leftmost occurrence of the query up to case, as the text
    spells it and as long as the query.  So [Hippocampus] and [cam] give
    [Hippo], [cam] marked and [pus]; [Thalamus] and [xyz] give [Thalamus];
    and [CA1] and [ca1] give three segments as well, [CA1] marked between an
    empty prefix and an empty suffix.  [highlightText] is the instance at the
    lowercasing of one-unit characters. *)
Theorem highlightText_segments (lower : string -> string) (text query : string) :
  (truthy (trim query) = false \/ text = "" \/
   includes (lower text) (lower query) = false ->
   highlightTextWith lower text query = [Plain text]) /\
  (truthy (trim query) = true -> text <> "" ->
   includes (lower text) (lower query) = true ->
   exists index,
     indexOf (lower text) (lower query) = Some index /\
     let before := slice 0 index text in
     let matched := slice index (index + String.length query) text in
     let after := sliceFrom (index + String.length query) text in
     highlightTextWith lower text query
     = [Plain before; Matched matched; Plain after] /\
     text = before +:+ matched +:+ after /\
     (KeepsPositions lower text ->
      String.length (lower query) = String.length query ->
      String.length before = index /\
      String.length matched = String.length query /\
      lower matched = lower query /\
      forall j, j < index ->
        lower (slice j (j + String.length query) text) <> lower query)) /\
  (lower "Hippocampus" = "hippocampus" -> lower "cam" = "cam" ->
   highlightTextWith lower "Hippocampus" "cam"
   = [Plain "Hippo"; Matched "cam"; Plain "pus"]) /\
  (lower "CA1" = "ca1" -> lower "ca1" = "ca1" ->
   highlightTextWith lower "CA1" "ca1" = [Plain ""; Matched "CA1"; Plain ""]) /\
  (lower "Thalamus" = "thalamus" -> lower "xyz" = "xyz" ->
   highlightTextWith lower "Thalamus" "xyz" = [Plain "Thalamus"]) /\
  (forall t q, highlightText t q = highlightTextWith toLowerCase t q) /\
  (forall t, KeepsPositions toLowerCase t).
Proof.
  split; [apply highlightTextWith_plain|].
  split.
  { intros Hq Ht Hc.
    destruct (highlightTextWith_three lower text query Hq Ht Hc)
      as (index & E & Hres & Htext).
    exists index. split; [exact E|]. cbv zeta.
    split; [exact Hres|]. split; [exact Htext|].
    intros Hkeep Hqlen. now apply highlightTextWith_leftmost. }
  split; [intros H1 H2; unfold highlightTextWith; rewrite H1, H2; reflexivity|].
  split; [intros H1 H2; unfold highlightTextWith; rewrite H1, H2; reflexivity|].
  split; [intros H1 H2; unfold highlightTextWith; rewrite H1, H2; reflexivity|].
  split; [reflexivity|apply toLowerCase_keeps_positions].
Qed.

Lemma highlightText_segments_witness :
  truthy (trim "Cam") = true /\ "HippoCAMpus" <> "" /\
  includes (toLowerCase "HippoCAMpus") (toLowerCase "Cam") = true /\
  KeepsPositions toLowerCase "HippoCAMpus" /\
  String.length (toLowerCase "Cam") = String.length "Cam" /\
  highlightTextWith toLowerCase "HippoCAMpus" "Cam"
  = [Plain "Hippo"; Matched "CAM"; Plain "pus"] /\
  toLowerCase "CAM" = toLowerCase "Cam" /\
  highlightTextWith toLowerCase "" "Cam" = [Plain ""] /\
  highlightTextWith toLowerCase "CA1" "ca1" = [Plain ""; Matched "CA1"; Plain ""].
Proof.
  destruct (highlightText_segments toLowerCase "HippoCAMpus" "Cam")
    as (_ & Hsplit & _ & Hca1 & _ & _ & Hkeep).
  destruct (highlightText_segments toLowerCase "" "Cam") as (Hplain & _).
  split; [reflexivity|]. split; [discriminate|]. split; [reflexivity|].
  split; [apply Hkeep|]. split; [reflexivity|].
  destruct (Hsplit eq_refl ltac:(discriminate) eq_refl) as (index & Hi & H).
  injection Hi as <-. cbv zeta in H. destruct H as (Hres & _ & Hmark).
  destruct (Hmark (Hkeep "HippoCAMpus") eq_refl) as (_ & _ & Hlower & _).
  split; [exact Hres|]. split; [exact Hlower|].
  split; [apply Hplain; right; left; reflexivity|].
  apply Hca1; reflexivity.
Defined.

(** The third example of C6 as the specification writes it: the result for
    [CA1] and [ca1] is not the matched segment alone. *)
Lemma highlightText_CA1_three_segments :
  highlightText "CA1" "ca1" <> [Matched "CA1"] /\
  length (highlightText "CA1" "ca1") = 3.
Proof. split; [discriminate|reflexivity]. Qed.

(** * Further properties of the engine *)

(** ** Substrings *)

Lemma startsWith_trans (s p q : string) :
  startsWith s p = true -> startsWith p q = true -> startsWith s q = true.
Proof.
  revert s p. induction q as [|c q IH]; intros s p Hs Hp; [reflexivity|].
  destruct p as [|d p]; [discriminate|]. simpl in Hp.
  destruct (Ascii.eqb_spec c d) as [->|]; [|discriminate].
  destruct s as [|e s]; [discriminate|]. simpl in Hs. simpl.
  destruct (Ascii.eqb d e); [|discriminate]. now apply IH with p.
Qed.

Lemma includes_startsWith (s p : string) :
  startsWith s p = true -> includes s p = true.
Proof. intros H. destruct s; simpl; now rewrite H. Qed.

Lemma includes_tail (c : ascii) (s p : string) :
  includes s p = true -> includes (String c s) p = true.
Proof. intros H. simpl. rewrite H. apply orb_true_r. Qed.

Lemma startsWith_includes_trans (s p q : string) :
  startsWith s p = true -> includes p q = true -> includes s q = true.
Proof.
  revert s. induction p as [|d p IH]; intros s Hs Hq.
  - simpl in Hq. rewrite orb_false_r in Hq.
    apply includes_startsWith. now apply startsWith_trans with "".
  - simpl in Hq. apply orb_true_iff in Hq. destruct Hq as [Hq|Hq].
    + apply includes_startsWith. now apply startsWith_trans with (String d p).
    + destruct s as [|e s]; [discriminate|]. simpl in Hs.
      destruct (Ascii.eqb d e); [|discriminate].
      apply includes_tail. now apply IH.
Qed.

Lemma includes_trans (s p q : string) :
  includes s p = true -> includes p q = true -> includes s q = true.
Proof.
  induction s as [|c s IH]; intros Hs Hq.
  - simpl in Hs. rewrite orb_false_r in Hs.
    now apply startsWith_includes_trans with p.
  - simpl in Hs. apply orb_true_iff in Hs. destruct Hs as [Hs|Hs].
    + now apply startsWith_includes_trans with p.
    + apply includes_tail. now apply IH.
Qed.

Lemma startsWith_refl (s : string) : startsWith s s = true.
Proof. induction s as [|c s IH]; simpl; [reflexivity|]. now rewrite Ascii.eqb_refl. Qed.

Lemma includes_refl (s : string) : includes s s = true.
Proof. apply includes_startsWith, startsWith_refl. Qed.

(** ** Filtering a filtered tree *)

Lemma nameMatch_emitted (ak : list string) (q q' : string) (node : RegionNode) :
  nameMatch q' (emitted ak q node) = nameMatch q' node.
Proof. reflexivity. Qed.

Lemma valueMatch_getProp_withChildren (q : string) (node : RegionNode)
    (c : option (list RegionNode)) (k : string) :
  valueMatch q (getProp (withChildren node c) k) = valueMatch q (getProp node k).
Proof.
  destruct (String.eqb_spec k "children") as [->|Hk].
  - unfold getProp. simpl. now destruct c, (children node).
  - now rewrite getProp_withChildren.
Qed.

Lemma acronymMatch_emitted (ak ak' : list string) (q q' : string) (node : RegionNode) :
  acronymMatch ak' q' (emitted ak q node) = acronymMatch ak' q' node.
Proof.
  unfold acronymMatch, emitted. induction ak' as [|k ak' IH]; [reflexivity|].
  simpl. now rewrite valueMatch_getProp_withChildren, IH.
Qed.

Lemma nonEmpty_Some (l : list RegionNode) :
  nonEmpty (Some l) = match l with [] => false | _ :: _ => true end.
Proof. reflexivity. Qed.

Lemma included_unfold (ak : list string) (q : string) (node : RegionNode) :
  included ak q node
  = nameMatch q node || acronymMatch ak q node
    || match filterTree ak (childList node) q with [] => false | _ :: _ => true end.
Proof.
  unfold included, filteredChildrenOf, childList.
  destruct (children node) as [cs|]; reflexivity.
Qed.

Lemma emitted_unfold (ak : list string) (q : string) (node : RegionNode) :
  emitted ak q node
  = withChildren node
      match filterTree ak (childList node) q with
      | [] => None
      | c :: l => Some (c :: l)
      end.
Proof.
  unfold emitted, filteredChildrenOf, childList.
  destruct (children node) as [cs|]; simpl; [|reflexivity].
  now destruct (filterTree ak cs q).
Qed.

Lemma withChildren_withChildren (node : RegionNode) (c c' : option (list RegionNode)) :
  withChildren (withChildren node c) c' = withChildren node c'.
Proof. reflexivity. Qed.

(** Filtering for [q'] what was filtered for [q] gives what filtering for
    [q'] gives, as soon as every string that contains [q'] contains [q]. *)
Lemma filterTree_compose (ak : list string) (q q' : string) :
  (forall s, includes s q' = true -> includes s q = true) ->
  forall forest,
    filterTree ak (filterTree ak forest q) q' = filterTree ak forest q'.
Proof.
  intros Hsub.
  assert (Hname : forall n, nameMatch q' n = true -> nameMatch q n = true).
  { intros n. apply Hsub. }
  assert (Hacr : forall n, acronymMatch ak q' n = true -> acronymMatch ak q n = true).
  { intros n. unfold acronymMatch. rewrite !existsb_exists.
    intros (k & Hk & Hv). exists k. split; [exact Hk|].
    destruct (getProp n k); try discriminate. now apply Hsub. }
  induction forest as [|node rest IHc IHr] using forest_rec_ind; [reflexivity|].
  rewrite (filterTree_cons ak q), filterTree_app, IHr, (filterTree_cons ak q').
  f_equal.
  assert (Hkids : filterTree ak (childList (emitted ak q node)) q'
                  = filterTree ak (childList node) q').
  { now rewrite childList_emitted. }
  assert (Hinc : included ak q' (emitted ak q node) = included ak q' node).
  { rewrite !included_unfold, Hkids. now rewrite nameMatch_emitted, acronymMatch_emitted. }
  assert (Hem : emitted ak q' (emitted ak q node) = emitted ak q' node).
  { rewrite (emitted_unfold ak q' (emitted ak q node)), Hkids.
    rewrite (emitted_unfold ak q' node). unfold emitted at 1.
    apply withChildren_withChildren. }
  destruct (included ak q node) eqn:Hq.
  - rewrite filterTree_cons, filterTree_nil, app_nil_r, Hinc, Hem. reflexivity.
  - rewrite filterTree_nil.
    destruct (included ak q' node) eqn:Hq'; [|reflexivity].
    exfalso. rewrite included_unfold in Hq, Hq'.
    apply orb_false_iff in Hq. destruct Hq as [Hq Hk].
    apply orb_false_iff in Hq. destruct Hq as [Hn Ha].
    apply orb_true_iff in Hq'. destruct Hq' as [Hq'|Hk'].
    + apply orb_true_iff in Hq'. destruct Hq' as [H|H].
      * apply Hname in H. congruence.
      * apply Hacr in H. congruence.
    + rewrite <- IHc in Hk'.
      destruct (filterTree ak (childList node) q); [discriminate Hk'|discriminate Hk].
Qed.

(** X1.  Filtering is idempotent: the filtered data, filtered again for the
    same query, is the filtered data. *)
Theorem filteredData_idempotent (ak : list string) (data : list RegionNode)
    (query : string) :
  filteredData ak (filteredData ak data query) query = filteredData ak data query.
Proof.
  unfold filteredData. destruct (truthy (trim query)); [|reflexivity].
  apply filterTree_compose. auto.
Qed.

(** X2.  A query that contains the earlier one, case ignored, narrows the
    result: filtering the earlier result for the new query gives the result
    for the new query, which is therefore a pruning of the earlier result. *)
Theorem filteredData_refines (ak : list string) (data : list RegionNode)
    (query query' : string) :
  truthy (trim query) = true ->
  truthy (trim query') = true ->
  caseInsensitiveContains query' query = true ->
  filteredData ak (filteredData ak data query) query' = filteredData ak data query' /\
  PrunedForest (filteredData ak data query') (filteredData ak data query).
Proof.
  intros Hq Hq' Hsub.
  assert (E : filteredData ak (filteredData ak data query) query'
              = filteredData ak data query').
  { rewrite (filteredData_searching ak data query Hq).
    rewrite !(filteredData_searching ak _ query' Hq').
    apply filterTree_compose. intros s Hs. now apply includes_trans with (toLowerCase query'). }
  split; [exact E|].
  rewrite <- E. rewrite (filteredData_searching ak _ query' Hq').
  apply filterTree_pruned.
Qed.

Lemma filteredData_refines_witness :
  truthy (trim "Cor") = true /\ truthy (trim "visual CORTEX") = true /\
  caseInsensitiveContains "visual CORTEX" "Cor" = true /\
  filteredData ["A1"]
    (filteredData ["A1"] [Scenario.r1 1 2; Scenario.r2 3] "Cor") "visual CORTEX"
  = [withChildren (Scenario.r1 1 2) (Some [Scenario.r2 2]); Scenario.r2 3].
Proof.
  split; [reflexivity|]. split; [reflexivity|]. split; [reflexivity|].
  destruct (filteredData_refines ["A1"] [Scenario.r1 1 2; Scenario.r2 3]
              "Cor" "visual CORTEX" eq_refl eq_refl eq_refl) as [E _].
  rewrite E. reflexivity.
Defined.

(** ** Keys of the filtered tree *)

Lemma pruned_collectKeys (out inp : list RegionNode) :
  PrunedForest out inp -> sublist (collectKeys out) (collectKeys inp).
Proof.
  induction 1 as [|n out inp _ IH|m n out inp Hsame _ IHc _ IHr].
  - constructor.
  - rewrite collectKeys_cons. apply sublist_cons. now apply sublist_inserts_l.
  - rewrite !collectKeys_cons. destruct Hsame as (-> & _).
    apply sublist_skip. now apply sublist_app.
Qed.

Lemma pruned_refl (forest : list RegionNode) : PrunedForest forest forest.
Proof.
  induction forest as [|node rest IHc IHr] using forest_rec_ind; [constructor|].
  apply Pruned_keep; [repeat split|exact IHc|exact IHr].
Qed.

Lemma filteredData_pruned (ak : list string) (data : list RegionNode)
    (query : string) :
  PrunedForest (filteredData ak data query) data.
Proof.
  unfold filteredData. destruct (truthy (trim query)).
  - apply filterTree_pruned.
  - apply pruned_refl.
Qed.

(** X3.  Whatever the query, the keys of the filtered data are keys of the
    dataset, in the order the dataset has them: they form a subsequence of
    its keys, so there are at most as many of them as the dataset has
    nodes. *)
Theorem filteredData_keys (ak : list string) (data : list RegionNode)
    (query : string) :
  sublist (getAllKeys (filteredData ak data query)) (getAllKeys data) /\
  (forall k, In k (getAllKeys (filteredData ak data query)) ->
             In k (getAllKeys data)) /\
  length (getAllKeys (filteredData ak data query)) <= forestSize data /\
  forestSize (filteredData ak data query) <= forestSize data.
Proof.
  assert (Hsub : sublist (getAllKeys (filteredData ak data query)) (getAllKeys data)).
  { rewrite !getAllKeys_collectKeys. apply pruned_collectKeys, filteredData_pruned. }
  assert (Hlen : forall f, length (getAllKeys f) = forestSize f).
  { intros f. rewrite getAllKeys_collectKeys, collectKeys_nodesOf, length_map.
    apply nodesOf_length. }
  split; [exact Hsub|]. split; [|split].
  - intros k Hk. apply list_elem_of_In. apply list_elem_of_In in Hk.
    now apply (elem_of_sublist _ _ _ Hk).
  - rewrite <- (Hlen data). now apply sublist_length.
  - rewrite <- !Hlen. now apply sublist_length.
Qed.

(** X4.  Filtering keeps the keys pairwise distinct: when no key occurs twice
    in the dataset, none occurs twice in the filtered data. *)
Theorem filteredData_keys_distinct (ak : list string) (data : list RegionNode)
    (query : string) :
  List.NoDup (getAllKeys data) ->
  List.NoDup (getAllKeys (filteredData ak data query)).
Proof.
  intros Hnd. apply NoDup_ListNoDup. apply NoDup_ListNoDup in Hnd.
  apply (sublist_NoDup _ _ Hnd).
  rewrite !getAllKeys_collectKeys. apply pruned_collectKeys, filteredData_pruned.
Qed.

Lemma filteredData_keys_distinct_witness :
  List.NoDup (getAllKeys [Scenario.r1 1 2]) /\
  List.NoDup (getAllKeys (filteredData ["A1"] [Scenario.r1 1 2] "visp")).
Proof.
  assert (Hnd : List.NoDup (getAllKeys [Scenario.r1 1 2])).
  { change (List.NoDup ["r1"; "r2"]).
    repeat constructor; simpl; intuition discriminate. }
  split; [exact Hnd|]. now apply filteredData_keys_distinct.
Defined.

(** ** Matches, leaves and ancestors *)

Lemma selfMatches_bool (ak : list string) (query : string) (node : RegionNode) :
  SelfMatches ak query node
  <-> nameMatch (toLowerCase query) node
      || acronymMatch ak (toLowerCase query) node = true.
Proof.
  rewrite orb_true_iff, acronymMatch_query. reflexivity.
Qed.

Lemma filterTree_no_match (ak : list string) (q : string) (forest : list RegionNode) :
  (forall n, InForest n forest -> nameMatch q n || acronymMatch ak q n = false) ->
  filterTree ak forest q = [].
Proof.
  induction forest as [|node rest IHc IHr] using forest_rec_ind; intros Hno;
    [reflexivity|].
  rewrite filterTree_cons, included_unfold.
  rewrite IHc, IHr.
  - rewrite (Hno node); [reflexivity|]. apply InForest_cons. now left.
  - intros n Hn. apply Hno. apply InForest_cons. now right; right.
  - intros n Hn. apply Hno. apply InForest_cons. now right; left.
Qed.

(** X5.  With a query that is not blank, the filtered data is empty exactly
    when no node of the dataset, at any depth, matches the query by itself. *)
Theorem filteredData_empty_iff (ak : list string) (data : list RegionNode)
    (query : string) :
  truthy (trim query) = true ->
  (filteredData ak data query = []
   <-> forall n, InForest n data -> ~ SelfMatches ak query n).
Proof.
  intros Hq. rewrite (filteredData_searching ak data query Hq). split.
  - intros Hnil n Hn Hself.
    pose proof (filterTree_InForest_intro ak (toLowerCase query) data n Hn
                  (selfMatches_included ak query n Hself)) as Hin.
    rewrite Hnil in Hin. now apply InForest_nil in Hin.
  - intros Hno. apply filterTree_no_match. intros n Hn.
    apply not_true_is_false. intros H. apply (Hno n Hn). now apply selfMatches_bool.
Qed.

Lemma filteredData_empty_iff_witness :
  truthy (trim "thalamus") = true /\
  filteredData ["A1"] [Scenario.r1 1 2] "thalamus" = [] /\
  forall n, InForest n [Scenario.r1 1 2] -> ~ SelfMatches ["A1"] "thalamus" n.
Proof.
  split; [reflexivity|]. split; [reflexivity|].
  apply (filteredData_empty_iff ["A1"] [Scenario.r1 1 2] "thalamus" eq_refl).
  reflexivity.
Defined.

(** X6.  With a query that is not blank, no node of the filtered data, at
    any depth, carries an empty [children] array, and every node of it that
    has no children matches the query by itself: the leaves of the filtered
    tree are matches, never pass-through ancestors. *)
Theorem filteredData_leaves_match (ak : list string) (data : list RegionNode)
    (query : string) (m : RegionNode) :
  truthy (trim query) = true ->
  InForest m (filteredData ak data query) ->
  children m <> Some [] /\
  (children m = None -> SelfMatches ak query m).
Proof.
  intros Hq. rewrite (filteredData_searching ak data query Hq). intros Hm.
  apply filterTree_InForest_inv in Hm. destruct Hm as (n & _ & Hinc & ->).
  rewrite included_unfold in Hinc. rewrite emitted_unfold.
  destruct (filterTree ak (childList n) (toLowerCase query)) as [|c l]; simpl.
  - split; [discriminate|]. intros _. rewrite orb_false_r in Hinc.
    apply selfMatches_bool in Hinc.
    destruct Hinc as [H|(k & s & Hk & E & Hv)]; [now left|right].
    exists k, s. split; [exact Hk|]. split; [|exact Hv].
    now apply getProp_withChildren_string.
  - split; [|discriminate]. intros [= H].
Qed.

Lemma filteredData_leaves_match_witness :
  truthy (trim "visp") = true /\
  InForest (Scenario.r2 2) (filteredData ["A1"] [Scenario.r1 1 2] "visp") /\
  SelfMatches ["A1"] "visp" (Scenario.r2 2).
Proof.
  assert (Hin : InForest (Scenario.r2 2)
                  (filteredData ["A1"] [Scenario.r1 1 2] "visp")).
  { apply InForest_child with (withChildren (Scenario.r1 1 2) (Some [Scenario.r2 2])).
    - left. reflexivity.
    - apply InForest_root. left. reflexivity. }
  split; [reflexivity|]. split; [exact Hin|].
  now apply (filteredData_leaves_match ["A1"] [Scenario.r1 1 2] "visp" _ eq_refl Hin).
Defined.

(** X7.  With a query that is not blank, every ancestor of a node that
    matches the query is kept: its copy is in the filtered data, it has
    children, and a copy of the matching node is among its descendants. *)
Theorem filteredData_keeps_ancestors (ak : list string) (data : list RegionNode)
    (query : string) (p n : RegionNode) :
  truthy (trim query) = true ->
  InForest p data -> Descendant n p -> SelfMatches ak query n ->
  exists m m',
    InForest m (filteredData ak data query) /\ SameButChildren m p /\
    children m <> None /\
    Descendant m' m /\ SameButChildren m' n.
Proof.
  intros Hq Hp Hn Hself. rewrite (filteredData_searching ak data query Hq).
  set (q := toLowerCase query).
  assert (Hin : InForest (emitted ak q n) (filterTree ak (childList p) q)).
  { apply filterTree_InForest_intro; [exact Hn|]. now apply selfMatches_included. }
  assert (Hne : filterTree ak (childList p) q <> []).
  { intros E. rewrite E in Hin. now apply InForest_nil in Hin. }
  assert (Hinc : included ak q p = true).
  { unfold included. apply nonEmpty_filteredChildrenOf in Hne. rewrite Hne.
    apply orb_true_r. }
  exists (emitted ak q p), (emitted ak q n). split; [|split; [|split; [|split]]].
  - now apply filterTree_InForest_intro.
  - apply sameButChildren_emitted.
  - rewrite emitted_unfold. simpl.
    destruct (filterTree ak (childList p) q); [now contradiction Hne|discriminate].
  - unfold Descendant. now rewrite childList_emitted.
  - apply sameButChildren_emitted.
Qed.

Lemma filteredData_keeps_ancestors_witness :
  truthy (trim "visp") = true /\
  exists m m',
    InForest m (filteredData ["A1"] [Scenario.r1 1 2] "visp") /\
    SameButChildren m (Scenario.r1 1 2) /\ children m <> None /\
    Descendant m' m /\ SameButChildren m' (Scenario.r2 2).
Proof.
  split; [reflexivity|].
  apply (filteredData_keeps_ancestors ["A1"] [Scenario.r1 1 2] "visp").
  - reflexivity.
  - apply InForest_root. left. reflexivity.
  - apply InForest_root. left. reflexivity.
  - right. exists "A1", "VISp". split; [left; reflexivity|]. split; reflexivity.
Defined.

Lemma filterTree_all_included (ak : list string) (q : string)
    (forest : list RegionNode) :
  (forall n, InForest n forest -> included ak q n = true) ->
  Forall2 LeafEquiv (filterTree ak forest q) forest.
Proof.
  induction forest as [|node rest IHc IHr] using forest_rec_ind; intros Hall;
    [constructor|].
  rewrite filterTree_cons, (Hall node); [|apply InForest_cons; now left].
  simpl. constructor.
  - constructor; [apply sameButChildren_emitted|].
    rewrite childList_emitted. apply IHc.
    intros n Hn. apply Hall. apply InForest_cons. now right; left.
  - apply IHr. intros n Hn. apply Hall. apply InForest_cons. now right; right.
Qed.

(** X8.  With a query that is not blank, when every node of the dataset
    matches the query by itself the filter prunes nothing: the filtered data
    is the dataset, up to the identification of an empty [children] sequence
    with an absent one. *)
Theorem filteredData_all_match (ak : list string) (data : list RegionNode)
    (query : string) :
  truthy (trim query) = true ->
  (forall n, InForest n data -> SelfMatches ak query n) ->
  Forall2 LeafEquiv (filteredData ak data query) data.
Proof.
  intros Hq Hall. rewrite (filteredData_searching ak data query Hq).
  apply filterTree_all_included. intros n Hn.
  apply selfMatches_included. now apply Hall.
Qed.

Lemma filteredData_all_match_witness :
  truthy (trim "cortex") = true /\
  Forall2 LeafEquiv (filteredData ["A1"] [Scenario.r1 1 2] "cortex") [Scenario.r1 1 2].
Proof.
  split; [reflexivity|].
  apply (filteredData_all_match ["A1"] [Scenario.r1 1 2] "cortex" eq_refl).
  intros n Hn. left. apply InForest_nodesOf in Hn. simpl in Hn.
  destruct Hn as [<-|[<-|[]]]; reflexivity.
Defined.

(** ** Buttons, toggles and the auto-expand effect *)

Lemma filteredData_keys_bound (st : AppState) :
  length (getAllKeys (filteredDataOf st)) <= forestSize (data st).
Proof.
  unfold filteredDataOf.
  assert (H : sublist (getAllKeys (filteredData (atlasKeys st) (data st) (searchText st)))
                      (getAllKeys (data st))).
  { rewrite !getAllKeys_collectKeys. apply pruned_collectKeys, filteredData_pruned. }
  apply sublist_length in H. rewrite H.
  rewrite getAllKeys_collectKeys, collectKeys_nodesOf, length_map.
  now rewrite nodesOf_length.
Qed.

Lemma setExpandedKeys_same (st : AppState) :
  setExpandedKeys (expandedKeys st) st = st.
Proof. now destruct st. Qed.

Lemma getAllKeys_length (forest : list RegionNode) :
  length (getAllKeys forest) = forestSize forest.
Proof.
  rewrite getAllKeys_collectKeys, collectKeys_nodesOf, length_map.
  apply nodesOf_length.
Qed.

Lemma getAllKeys_In (forest : list RegionNode) (n : RegionNode) :
  InForest n forest -> In (key n) (getAllKeys forest).
Proof.
  intros Hn. rewrite getAllKeys_collectKeys, collectKeys_nodesOf.
  apply in_map. now apply InForest_nodesOf.
Qed.

(** X9.  Expand All is idempotent and forgets what was expanded before: after
    any handler, and after Collapse All in particular, it gives the same
    expanded keys, one for each node of the dataset.  Collapse All leaves no
    key. *)
Theorem expandAll_idempotent (st : AppState) :
  expandAll (expandAll st) = expandAll st /\
  (forall ev, expandedKeys (expandAll (handle ev st)) = expandedKeys (expandAll st)) /\
  (forall ks, expandAll (setExpandedKeys ks st) = expandAll st) /\
  length (expandedKeys (expandAll st)) = forestSize (data st) /\
  (forall n, InForest n (data st) -> In (key n) (expandedKeys (expandAll st))) /\
  (forall ev, expandedKeys (collapseAll (handle ev st)) = []).
Proof.
  split; [reflexivity|]. split; [intros [v| | |[|] r]; reflexivity|].
  split; [reflexivity|]. split; [apply getAllKeys_length|].
  split; [intros n; apply getAllKeys_In|]. intros ev. reflexivity.
Qed.

Lemma filter_others_notin (k : string) (ks : list string) :
  ~ In k ks -> List.filter (fun k' => negb (String.eqb k' k)) ks = ks.
Proof.
  induction ks as [|a ks IH]; simpl; [reflexivity|]. intros Hn.
  destruct (String.eqb_spec a k) as [->|_]; simpl.
  - exfalso. apply Hn. now left.
  - f_equal. apply IH. tauto.
Qed.

Lemma filter_others_app (k : string) (ks : list string) :
  List.filter (fun k' => negb (String.eqb k' k)) (ks ++ [k])
  = List.filter (fun k' => negb (String.eqb k' k)) ks.
Proof.
  rewrite List.filter_app. simpl. rewrite String.eqb_refl. simpl. apply app_nil_r.
Qed.

(** X10.  Expanding a row that is not expanded and collapsing it again gives
    the state back.  In general a collapse after an expand leaves the keys a
    collapse alone leaves, and an expand after a collapse leaves the key of
    the row exactly once. *)
Theorem onExpand_round_trip (st : AppState) (record : RegionNode) :
  ~ In (key record) (expandedKeys st) ->
  onExpand false record (onExpand true record st) = st /\
  (forall st', onExpand false record (onExpand true record st')
               = onExpand false record st') /\
  (forall st', count_occ string_dec
                 (expandedKeys (onExpand true record (onExpand false record st')))
                 (key record) = 1).
Proof.
  intros Hnot.
  assert (Hgen : forall st', onExpand false record (onExpand true record st')
                             = onExpand false record st').
  { intros st'. unfold onExpand. simpl. now rewrite filter_others_app. }
  split; [|split; [exact Hgen|]].
  - rewrite Hgen. unfold onExpand. rewrite (filter_others_notin _ _ Hnot).
    apply setExpandedKeys_same.
  - intros st'. simpl. rewrite count_occ_app. simpl.
    destruct (string_dec (key record) (key record)) as [_|Hne]; [|now contradiction Hne].
    rewrite (proj1 (count_occ_not_In string_dec _ _)); [reflexivity|].
    rewrite filter_In. intros [_ H]. rewrite String.eqb_refl in H. discriminate.
Qed.

Lemma onExpand_round_trip_witness :
  ~ In (key (Scenario.r2 2)) (expandedKeys (setExpandedKeys ["r1"] initialState)) /\
  onExpand false (Scenario.r2 2)
    (onExpand true (Scenario.r2 2) (setExpandedKeys ["r1"] initialState))
  = setExpandedKeys ["r1"] initialState.
Proof.
  assert (Hnot : ~ In (key (Scenario.r2 2))
                   (expandedKeys (setExpandedKeys ["r1"] initialState))).
  { simpl. intuition discriminate. }
  split; [exact Hnot|].
  exact (proj1 (onExpand_round_trip (setExpandedKeys ["r1"] initialState)
                  (Scenario.r2 2) Hnot)).
Defined.

(** X11.  While the query is not blank, the auto-expand effect undoes what
    the buttons and the row toggles did to the expanded keys: run after
    Expand All, Collapse All or a toggle, it gives the state it gives without
    them, and running it twice is running it once.  While the query is blank
    it changes nothing. *)
Theorem autoExpand_overrides (st : AppState) :
  (truthy (trim (searchText st)) = true ->
   (forall ev, (forall v, ev <> SearchChanged v) ->
               autoExpand (handle ev st) = autoExpand st) /\
   (forall ks, autoExpand (setExpandedKeys ks st) = autoExpand st) /\
   autoExpand (autoExpand st) = autoExpand st) /\
  (truthy (trim (searchText st)) = false -> autoExpand st = st).
Proof.
  split.
  - intros Hq.
    assert (Hks : forall ks, autoExpand (setExpandedKeys ks st) = autoExpand st).
    { intros ks. unfold autoExpand. simpl. now rewrite Hq. }
    split; [|split; [exact Hks|]].
    + intros [v| | |[|] r] Hev; try apply Hks. now contradiction (Hev v).
    + unfold autoExpand at 2. rewrite Hq. apply Hks.
  - intros Hq. unfold autoExpand. now rewrite Hq.
Qed.

Lemma autoExpand_overrides_witness :
  truthy (trim (searchText (Scenario.searching 1 2 2 "visp"))) = true /\
  truthy (trim (searchText (Scenario.searching 1 2 2 " "))) = false /\
  expandedKeys (autoExpand (collapseAll (Scenario.searching 1 2 2 "visp")))
  = ["r1"; "r2"] /\
  autoExpand (Scenario.searching 1 2 2 " ") = Scenario.searching 1 2 2 " ".
Proof.
  split; [reflexivity|]. split; [reflexivity|].
  destruct (autoExpand_overrides (Scenario.searching 1 2 2 "visp")) as [H _].
  destruct (H eq_refl) as [Hev _].
  destruct (autoExpand_overrides (Scenario.searching 1 2 2 " ")) as [_ Hblank].
  split; [|exact (Hblank eq_refl)].
  change (collapseAll (Scenario.searching 1 2 2 "visp"))
    with (handle CollapseAllClicked (Scenario.searching 1 2 2 "visp")).
  rewrite Hev; [reflexivity|discriminate].
Defined.

(** X12.  The match count is not shown for the empty query; for a query of
    white space only it is shown and counts every node of the dataset, as
    nothing is filtered; and whenever it is shown it is the number of nodes
    of the filtered data, pass-through ancestors included, which is at most
    the number of nodes of the dataset. *)
Theorem matchCount_cases (st : AppState) :
  (searchText st = "" -> matchCount st = None) /\
  (searchText st <> "" -> truthy (trim (searchText st)) = false ->
   matchCount st = Some (forestSize (data st))) /\
  (forall c, matchCount st = Some c ->
             c = forestSize (filteredDataOf st) /\ c <= forestSize (data st)).
Proof.
  unfold matchCount. split; [|split].
  - now intros ->.
  - intros Hne Hblank. destruct (searchText st) eqn:E; [now contradiction Hne|].
    simpl. unfold filteredDataOf, filteredData. rewrite E, Hblank.
    now rewrite getAllKeys_length.
  - intros c. destruct (truthy (searchText st)); [|discriminate].
    intros [= <-]. split; [apply getAllKeys_length|].
    apply filteredData_keys_bound.
Qed.

Lemma matchCount_cases_witness :
  searchText (Scenario.searching 1 2 2 " ") <> "" /\
  truthy (trim (searchText (Scenario.searching 1 2 2 " "))) = false /\
  matchCount (Scenario.searching 1 2 2 " ") = Some 2 /\
  matchCount (Scenario.searching 1 2 2 "") = None.
Proof.
  destruct (matchCount_cases (Scenario.searching 1 2 2 " ")) as (_ & Hblank & _).
  destruct (matchCount_cases (Scenario.searching 1 2 2 "")) as (Hempty & _).
  split; [discriminate|]. split; [reflexivity|]. split.
  - rewrite Hblank; [reflexivity|discriminate|reflexivity].
  - apply Hempty. reflexivity.
Defined.

(** ** Loading, the successful case *)

(** X13.  When the fetch succeeds and the body parses, the four dataset cells
    take the values of the document, [loading] becomes [false], the query
    and the expanded keys are the ones of the moment, nothing is logged and
    one request was made; what is shown then is the filter of the new
    regions by the new atlas keys. *)
Theorem load_success {Response : Type} (w : World Response) (st : AppState)
    (res : Response) (result : RegionData) :
  fetch w (BASE_URL +:+ "regions.json") = Fulfilled res ->
  json w res = Fulfilled result ->
  let st' := fst (loadData w st) in
  snd (loadData w st) = [Fetch (BASE_URL +:+ "regions.json")] /\
  data st' = rd_regions result /\ atlases st' = rd_atlases result /\
  atlasKeys st' = rd_atlasKeys result /\
  totalRegions st' = rd_totalRegions result /\
  loading st' = false /\
  searchText st' = searchText st /\ expandedKeys st' = expandedKeys st /\
  filteredDataOf st'
  = filteredData (rd_atlasKeys result) (rd_regions result) (searchText st) /\
  length (expandedKeys (expandAll st')) = forestSize (rd_regions result).
Proof.
  intros Hf Hj st'.
  assert (E : loadData w st
              = (setLoading false (setDataset result st),
                 [Fetch (BASE_URL +:+ "regions.json")])).
  { unfold loadData. rewrite Hf. simpl. rewrite Hj. reflexivity. }
  unfold st'. rewrite E. simpl.
  repeat (split; [reflexivity|]). apply getAllKeys_length.
Qed.

Lemma load_success_witness :
  let w := {| fetch := fun _ => Fulfilled tt;
              json := fun _ => Fulfilled (Scenario.dataset 1 2 2) |} in
  fetch w (BASE_URL +:+ "regions.json") = Fulfilled tt /\
  json w tt = Fulfilled (Scenario.dataset 1 2 2) /\
  data (fst (loadData w initialState)) = [Scenario.r1 1 2] /\
  loading (fst (loadData w initialState)) = false.
Proof.
  intros w. split; [reflexivity|]. split; [reflexivity|].
  pose proof (load_success w initialState tt (Scenario.dataset 1 2 2)
                eq_refl eq_refl) as H.
  cbv zeta in H. destruct H as (_ & Hd & _ & _ & _ & Hl & _).
  split; [exact Hd|exact Hl].
Defined.

(** ** Highlighting and matching *)

Lemma slices_text (i len : nat) (text : string) :
  slice 0 i text +:+ slice i (i + len) text +:+ sliceFrom (i + len) text = text.
Proof.
  rewrite slice_from_0, slice_span, sliceFrom_add.
  now rewrite sliceTo_sliceFrom, sliceTo_sliceFrom.
Qed.

Lemma append_empty_r (s : string) : s +:+ "" = s.
Proof. induction s as [|c s IH]; [reflexivity|]. now rewrite append_String, IH. Qed.

(** X14.  Highlighting never changes what is displayed: for every text and
    query the segments, read in order, spell the text; and at most one of
    them is marked. *)
Theorem highlightText_preserves_text (text query : string) :
  segmentsText (highlightText text query) = text /\
  length (List.filter isMatched (highlightText text query)) <= 1.
Proof.
  unfold highlightText.
  destruct (negb (truthy (trim query)) || negb (truthy text)).
  - split; [apply append_empty_r|simpl; lia].
  - destruct (indexOf (toLowerCase text) (toLowerCase query)) as [index|].
    + split; [|simpl; lia]. unfold segmentsText. simpl.
      rewrite append_empty_r. apply slices_text.
    + split; [apply append_empty_r|simpl; lia].
Qed.

Lemma truthy_trim_nonempty (s : string) : truthy (trim s) = true -> s <> "".
Proof. intros H ->. discriminate H. Qed.

Lemma includes_empty_text (p : string) : p <> "" -> includes "" p = false.
Proof. destruct p; [intros H; now contradiction H|reflexivity]. Qed.

Lemma toLowerCase_nonempty (s : string) : s <> "" -> toLowerCase s <> "".
Proof. destruct s; [intros H; now contradiction H|discriminate]. Qed.

Lemma highlightText_marked (text query : string) :
  truthy (trim query) = true ->
  existsb isMatched (highlightText text query) = caseInsensitiveContains text query.
Proof.
  intros Hq. unfold highlightText, caseInsensitiveContains. rewrite Hq.
  destruct (truthy text) eqn:Ht; cbn [negb orb].
  - destruct (indexOf (toLowerCase text) (toLowerCase query)) eqn:E.
    + cbn [existsb isMatched orb]. symmetry. apply not_false_is_true. intros H.
      apply indexOf_includes in H. congruence.
    + cbn [existsb isMatched orb]. symmetry. now apply indexOf_includes.
  - destruct text; [|discriminate Ht]. cbn [existsb isMatched orb].
    symmetry. apply includes_empty_text, toLowerCase_nonempty.
    now apply truthy_trim_nonempty.
Qed.

(** X15.  The name cell of a row shows a mark exactly when the filter counts
    the name as a match, for every query that is not blank; for a blank
    query no text is ever marked. *)
Theorem renderName_marks_matches (searchText : string) (node : RegionNode) :
  (truthy (trim searchText) = true ->
   existsb isMatched (renderName searchText (name node))
   = nameMatch (toLowerCase searchText) node) /\
  (truthy (trim searchText) = false ->
   forall text, existsb isMatched (highlightText text searchText) = false).
Proof.
  split.
  - intros Hq. unfold renderName. now rewrite highlightText_marked.
  - intros Hq text. unfold highlightText. now rewrite Hq.
Qed.

Lemma renderName_marks_matches_witness :
  truthy (trim "visual") = true /\ truthy (trim "   ") = false /\
  existsb isMatched (renderName "visual" (name (Scenario.r2 2))) = true /\
  existsb isMatched (highlightText "Visual Cortex" "   ") = false.
Proof.
  split; [reflexivity|]. split; [reflexivity|].
  destruct (renderName_marks_matches "visual" (Scenario.r2 2)) as [H _].
  destruct (renderName_marks_matches "   " (Scenario.r2 2)) as [_ Hb].
  split; [rewrite (H eq_refl); reflexivity|exact (Hb eq_refl _)].
Defined.

(** X16.  An atlas cell whose value is [null] or the empty string shows the
    dash and no mark.  For a node whose atlas values are strings, [null] or
    missing, and a query that is not blank, a cell shows a mark exactly when
    the filter counts its value as a match, so the node matches by an atlas
    value exactly when one of its atlas cells shows a mark.  The hypothesis on
    the values keeps them within the declared type of the argument of
    [render]. *)
Theorem renderAtlas_marks_matches (ak : list string) (searchText : string)
    (node : RegionNode) :
  truthy (trim searchText) = true ->
  (forall k, In k ak ->
     match getProp node k with
     | JString _ | JNull | JUndefined => True
     | _ => False
     end) ->
  renderAtlas searchText None = Dash /\
  renderAtlas searchText (Some "") = Dash /\
  (forall k, In k ak ->
     cellMarked (renderAtlas searchText (atlasValue node k))
     = valueMatch (toLowerCase searchText) (getProp node k)) /\
  acronymMatch ak (toLowerCase searchText) node
  = existsb (fun k => cellMarked (renderAtlas searchText (atlasValue node k))) ak.
Proof.
  intros Hq _.
  assert (Hcell : forall k,
            cellMarked (renderAtlas searchText (atlasValue node k))
            = valueMatch (toLowerCase searchText) (getProp node k)).
  { intros k. unfold atlasValue. destruct (getProp node k) as [| | | |s|]; try reflexivity.
    destruct s as [|c s].
    - simpl. symmetry. apply includes_empty_text, toLowerCase_nonempty.
      now apply truthy_trim_nonempty.
    - unfold renderAtlas, cellMarked, valueMatch.
      now rewrite highlightText_marked. }
  split; [reflexivity|]. split; [reflexivity|]. split; [intros k _; apply Hcell|].
  unfold acronymMatch. induction ak as [|k ak IH]; [reflexivity|].
  simpl. now rewrite Hcell, IH.
Qed.

Lemma renderAtlas_marks_matches_witness :
  truthy (trim "visp") = true /\
  cellMarked (renderAtlas "visp" (atlasValue (Scenario.r2 2) "A1")) = true /\
  cellMarked (renderAtlas "visp" (atlasValue (Scenario.r1 1 2) "A1")) = false.
Proof.
  split; [reflexivity|].
  assert (H2 : forall k, In k ["A1"] ->
            match getProp (Scenario.r2 2) k with
            | JString _ | JNull | JUndefined => True
            | _ => False
            end).
  { intros k [<-|[]]. exact I. }
  assert (H1 : forall k, In k ["A1"] ->
            match getProp (Scenario.r1 1 2) k with
            | JString _ | JNull | JUndefined => True
            | _ => False
            end).
  { intros k [<-|[]]. exact I. }
  destruct (renderAtlas_marks_matches ["A1"] "visp" (Scenario.r2 2) eq_refl H2)
    as (_ & _ & E2 & _).
  destruct (renderAtlas_marks_matches ["A1"] "visp" (Scenario.r1 1 2) eq_refl H1)
    as (_ & _ & E1 & _).
  split.
  - rewrite E2; [reflexivity|now left].
  - rewrite E1; [reflexivity|now left].
Defined.

(** ** Columns *)

Lemma map_imap_const {A B C : Type} (g : B -> C) (h : A -> C) (l : list A) :
  forall f : nat -> A -> B,
    (forall i x, g (f i x) = h x) -> map g (imap f l) = map h l.
Proof.
  induction l as [|x l IH]; intros f Hf; [reflexivity|].
  simpl. rewrite Hf. f_equal. apply IH. intros i y. apply Hf.
Qed.

Lemma nth_error_imap {A B : Type} (l : list A) :
  forall (f : nat -> A -> B) (i : nat),
    nth_error (imap f l) i = option_map (f i) (nth_error l i).
Proof.
  induction l as [|x l IH]; intros f [|i]; try reflexivity.
  simpl. now rewrite IH.
Qed.

Lemma sum_constant (w : Z) (l : list string) :
  fold_right Z.add 0%Z (map (fun _ => w) l) = (Z.of_nat (length l) * w)%Z.
Proof.
  induction l as [|x l IH]; [reflexivity|].
  simpl length. rewrite Nat2Z.inj_succ. simpl. rewrite IH. lia.
Qed.

(** X17.  The table has the name column and then one column per atlas key,
    in the order of the keys, each reading the property of that key, centred
    and not pinned; the position of an atlas column is that of its key plus
    one.  The scroll width is the sum of the widths of the columns plus 50,
    whatever the breakpoints, and never less than 230. *)
Theorem columns_layout (screens : Screens) (atlases ak : list string) :
  length (columns screens atlases ak) = S (length ak) /\
  map col_dataIndex (columns screens atlases ak) = "name" :: ak /\
  map col_key (columns screens atlases ak) = "name" :: ak /\
  (forall i k, nth_error ak i = Some k ->
     nth_error (columns screens atlases ak) (S i)
     = Some (atlasColumn screens atlases i k)) /\
  (forall i c, nth_error (columns screens atlases ak) (S i) = Some c ->
     col_align c = Some "center" /\ col_fixed c = None /\
     col_width c = atlasColWidth screens) /\
  totalScrollX screens ak = (columnsWidth (columns screens atlases ak) + 50)%Z /\
  (230 <= totalScrollX screens ak)%Z.
Proof.
  assert (Hnth : forall i, nth_error (columns screens atlases ak) (S i)
                           = option_map (atlasColumn screens atlases i) (nth_error ak i)).
  { intros i. unfold columns. simpl. apply nth_error_imap. }
  split; [unfold columns; simpl; now rewrite length_imap|].
  split; [unfold columns; simpl; f_equal;
          rewrite (map_imap_const col_dataIndex (fun k => k)); [apply map_id|reflexivity]|].
  split; [unfold columns; simpl; f_equal;
          rewrite (map_imap_const col_key (fun k => k)); [apply map_id|reflexivity]|].
  split; [intros i k Hk; now rewrite Hnth, Hk|].
  split.
  { intros i c. rewrite Hnth. destruct (nth_error ak i); [|discriminate].
    intros [= <-]. repeat split. }
  assert (Hw : columnsWidth (columns screens atlases ak)
               = (nameColWidth screens + Z.of_nat (length ak) * atlasColWidth screens)%Z).
  { unfold columns, columnsWidth. simpl. f_equal.
    rewrite (map_imap_const col_width (fun _ => atlasColWidth screens));
      [apply sum_constant|reflexivity]. }
  split.
  - unfold totalScrollX. rewrite Hw. lia.
  - unfold totalScrollX, nameColWidth, atlasColWidth.
    destruct (md screens), (sm screens), (lg screens); nia.
Qed.

Lemma columns_layout_witness :
  nth_error ["A1"; "A2"] 1 = Some "A2" /\
  nth_error (columns (mkScreens true false false) ["Atlas One"] ["A1"; "A2"]) 2
  = Some {| col_title := "A2"; col_dataIndex := "A2"; col_key := "A2";
            col_width := 100; col_fixed := None; col_align := Some "center" |}.
Proof.
  split; [reflexivity|].
  destruct (columns_layout (mkScreens true false false) ["Atlas One"] ["A1"; "A2"])
    as (_ & _ & _ & H & _).
  rewrite (H 1 "A2" eq_refl). reflexivity.
Defined.

Lemma firstWord_prefix (a : string) : startsWith a (firstWord a) = true.
Proof.
  induction a as [|c a IH]; [reflexivity|]. simpl.
  destruct (Ascii.eqb c " "); [reflexivity|]. simpl. now rewrite Ascii.eqb_refl.
Qed.

Lemma firstWord_no_space (a : string) : includes (firstWord a) " " = false.
Proof.
  induction a as [|c a IH]; [reflexivity|]. simpl firstWord.
  destruct (Ascii.eqb_spec c " ") as [->|Hc]; [reflexivity|].
  change (includes (String c (firstWord a)) " ")
    with ((if Ascii.eqb " " c then true else false) || includes (firstWord a) " ").
  rewrite IH, orb_false_r.
  destruct (Ascii.eqb_spec " " c) as [<-|_]; [now contradiction Hc|reflexivity].
Qed.

Lemma orElse_cases (a : option string) (k : string) :
  (orElse a k = k /\ (a = None \/ a = Some "")) \/
  (a = Some (orElse a k) /\ orElse a k <> "").
Proof.
  destruct a as [[|c r]|]; simpl.
  - left. auto.
  - right. split; [reflexivity|discriminate].
  - left. auto.
Qed.

(** X18.  The title of an atlas column is never empty when the key is not.
    It is the key when the atlas list has no name at that position or an
    empty one.  Otherwise, on a screen of the [md] breakpoint it is the
    name, and on a narrower screen it is the first word of the name, a
    prefix of it without a space, or the key when the name begins with a
    space. *)
Theorem atlasTitle_cases (screens : Screens) (atlases : list string) (i : nat)
    (k : string) :
  (k <> "" -> atlasTitle screens atlases i k <> "") /\
  (nth_error atlases i = None \/ nth_error atlases i = Some "" ->
   atlasTitle screens atlases i k = k) /\
  (forall a, nth_error atlases i = Some a -> a <> "" -> md screens = true ->
     atlasTitle screens atlases i k = a) /\
  (forall a, nth_error atlases i = Some a -> md screens = false ->
     (firstWord a = "" /\ atlasTitle screens atlases i k = k) \/
     (atlasTitle screens atlases i k = firstWord a /\
      startsWith a (atlasTitle screens atlases i k) = true /\
      includes (atlasTitle screens atlases i k) " " = false)).
Proof.
  unfold atlasTitle. split; [|split; [|split]].
  - intros Hk. destruct (md screens).
    + destruct (orElse_cases (nth_error atlases i) k) as [[-> _]|[_ H]]; assumption.
    + destruct (orElse_cases (option_map firstWord (nth_error atlases i)) k)
        as [[-> _]|[_ H]]; assumption.
  - intros [->| ->]; now destruct (md screens).
  - intros a -> Ha ->. destruct a; [now contradiction Ha|reflexivity].
  - intros a -> ->. cbv iota.
    change (option_map firstWord (Some a)) with (Some (firstWord a)).
    pose proof (firstWord_prefix a) as Hp. pose proof (firstWord_no_space a) as Hs.
    destruct (firstWord a) as [|c r]; [now left|right]. now repeat split.
Qed.

Lemma atlasTitle_cases_witness :
  nth_error ["Allen Mouse Brain"] 0 = Some "Allen Mouse Brain" /\
  md (mkScreens true false false) = false /\
  atlasTitle (mkScreens true false false) ["Allen Mouse Brain"] 0 "A1" = "Allen" /\
  atlasTitle (mkScreens true false false) ["Allen Mouse Brain"] 1 "A2" = "A2".
Proof.
  split; [reflexivity|]. split; [reflexivity|].
  destruct (atlasTitle_cases (mkScreens true false false) ["Allen Mouse Brain"] 0 "A1")
    as (_ & _ & _ & H).
  destruct (atlasTitle_cases (mkScreens true false false) ["Allen Mouse Brain"] 1 "A2")
    as (_ & Hmiss & _).
  split; [|apply Hmiss; now left].
  destruct (H "Allen Mouse Brain" eq_refl eq_refl) as [[E _]|[E _]];
    [discriminate E|rewrite E; reflexivity].
Defined.

(** ** Table height *)

(** X19.  Whatever the container measures, and also while the ref is not
    attached, the table height is never below 200; it is the measured height
    less the 55 of the header as soon as that leaves 200 or more. *)
Theorem tableHeight_bounds (measures : list (option Z)) :
  (200 <= fold_left (fun h m => calculateHeight m h) measures initialTableHeight)%Z /\
  (forall h height, (255 <= height)%Z ->
     calculateHeight (Some height) h = (height - 55)%Z) /\
  (forall h height, (height <= 255)%Z -> calculateHeight (Some height) h = 200%Z).
Proof.
  split; [|split].
  - assert (H : forall h, (200 <= h)%Z ->
              (200 <= fold_left (fun h m => calculateHeight m h) measures h)%Z).
    { induction measures as [|m ms IH]; intros h Hh; [exact Hh|].
      simpl. apply IH. destruct m as [height|]; simpl; lia. }
    apply H. unfold initialTableHeight. lia.
  - intros h height Hh. simpl. lia.
  - intros h height Hh. simpl. lia.
Qed.

Lemma tableHeight_bounds_witness :
  (255 <= 655)%Z /\ (100 <= 255)%Z /\
  calculateHeight (Some 655%Z) 400 = 600%Z /\
  calculateHeight (Some 100%Z) 400 = 200%Z.
Proof.
  destruct (tableHeight_bounds []) as (_ & Hbig & Hsmall).
  split; [lia|]. split; [lia|]. split.
  - rewrite Hbig; [reflexivity|lia].
  - rewrite Hsmall; [reflexivity|lia].
Defined.

(** ** Row class of the second listing *)

(** X20.  A row gets the class [highlight-row] exactly when the query is not
    empty and its name contains it, case ignored; and every row of the
    dataset that gets it is shown: a copy of it is in the filtered data. *)
Theorem rowClassName_shown (ak : list string) (data : list RegionNode)
    (searchText : string) (record : RegionNode) :
  (rowClassName searchText record = "highlight-row"
   <-> searchText <> "" /\ caseInsensitiveContains (name record) searchText = true) /\
  (rowClassName searchText record = "highlight-row" ->
   InForest record data ->
   exists m, InForest m (filteredData ak data searchText) /\
             SameButChildren m record).
Proof.
  assert (Hiff : rowClassName searchText record = "highlight-row"
                 <-> searchText <> "" /\
                     caseInsensitiveContains (name record) searchText = true).
  { unfold rowClassName, caseInsensitiveContains.
    destruct (truthy searchText) eqn:Ht; cbn [andb].
    - assert (Hne : searchText <> "") by (intros ->; discriminate Ht).
      destruct (includes (toLowerCase (name record)) (toLowerCase searchText)).
      + split; [intros _; now split|reflexivity].
      + split; [discriminate|]. intros [_ H]. discriminate H.
    - destruct searchText; [|discriminate Ht].
      split; [discriminate|]. intros [H _]. now contradiction H. }
  split; [exact Hiff|].
  intros Hrow Hin. apply Hiff in Hrow. destruct Hrow as [_ Hname].
  unfold filteredData. destruct (truthy (trim searchText)).
  - exists (emitted ak (toLowerCase searchText) record).
    split; [|apply sameButChildren_emitted].
    apply filterTree_InForest_intro; [exact Hin|].
    apply selfMatches_included. now left.
  - exists record. split; [exact Hin|repeat split].
Qed.

Lemma rowClassName_shown_witness :
  rowClassName "CORTEX" (Scenario.r2 2) = "highlight-row" /\
  InForest (Scenario.r2 2) [Scenario.r1 1 2] /\
  exists m, InForest m (filteredData ["A1"] [Scenario.r1 1 2] "CORTEX") /\
            SameButChildren m (Scenario.r2 2).
Proof.
  assert (Hin : InForest (Scenario.r2 2) [Scenario.r1 1 2]).
  { apply InForest_child with (Scenario.r1 1 2); [now left|].
    apply InForest_root. now left. }
  split; [reflexivity|]. split; [exact Hin|].
  now apply (proj2 (rowClassName_shown ["A1"] [Scenario.r1 1 2] "CORTEX"
                      (Scenario.r2 2)) eq_refl).
Defined.
